(** * A Wordle solver: pattern cache and guess selection

    Shallow embedding of [src/pattern.py] and [src/solver.py].

    The Python code keeps the pattern grid in a module-level dictionary
    ([PATTERN_GRID_DATA]) and on disk; every function that looks patterns up
    may populate that dictionary and may raise.  The embedding threads a
    [world] (cache and disk) through a state-and-exception monad [M].
    Floating-point arithmetic is kept behind the interfaces [Num] and
    [Transcendental]: statements about the formulas hold for every
    interpretation of the operations, the rationals are the instance where
    a statement needs exact arithmetic, and the reals the one with true
    powers and logarithms. *)

From Stdlib Require Import Ascii String QArith Qfield Reals Qreals Lia Lra.
From Stdlib Require Import PrimFloat Uint63 FloatOps SpecFloat.
From stdpp Require Import base option list strings pretty gmap.

Close Scope Q_scope.
Close Scope R_scope.
Local Open Scope stdpp_scope.

(** ** Values *)

(** A word and a game identifier are Python strings ([string]).  A pattern
    is an integer in [0, 3^5), one base-3 digit per letter ([N]).  A pattern
    matrix is a dense two-dimensional numpy array, kept row by row
    ([list (list N)]). *)

(** ** Exceptions and the state monad *)

Inductive error : Type :=
  | KeyError (w : string)
  | IndexError
  | ValueError (msg : string)
  | FileNotFoundError (fname : string)
  | Diverges.

Inductive result (A : Type) : Type :=
  | Ok (a : A)
  | Raise (e : error).
Arguments Ok {A} a.
Arguments Raise {A} e.

(** The two entries of [PATTERN_GRID_DATA] once it is populated. *)
Record grid_data : Type := GridData {
  grid : list (list N);
  words_to_index : gmap string nat
}.

(** The mutable environment: the module-level dictionary (empty, or holding
    both keys) and the saved [.npy] files, by file name. *)
Record world : Type := World {
  PATTERN_GRID_DATA : option grid_data;
  disk : gmap string (list (list N))
}.

Definition M (A : Type) : Type := world → result A * world.

#[export] Instance M_ret : MRet M := λ A a s, (Ok a, s).
#[export] Instance M_bind : MBind M := λ A B f m s,
  match m s with
  | (Ok a, s') => f a s'
  | (Raise e, s') => (Raise e, s')
  end.

Definition raise {A : Type} (e : error) : M A := λ s, (Raise e, s).
Definition lift {A : Type} (r : result A) : M A := λ s, (r, s).

Definition get_cache : M (option grid_data) := λ s, (Ok (PATTERN_GRID_DATA s), s).
Definition set_cache (d : grid_data) : M unit :=
  λ s, (Ok tt, World (Some d) (disk s)).
Definition path_exists (fname : string) : M bool :=
  λ s, (Ok (bool_decide (is_Some (disk s !! fname))), s).
Definition np_save (fname : string) (m : list (list N)) : M unit :=
  λ s, (Ok tt, World (PATTERN_GRID_DATA s) (<[fname := m]> (disk s))).
Definition np_load (fname : string) : M (list (list N)) :=
  λ s, (from_option Ok (Raise (FileNotFoundError fname)) (disk s !! fname), s).

(** Exceptions outside the state: list comprehensions over a dictionary. *)
#[export] Instance result_ret : MRet result := λ A a, Ok a.
#[export] Instance result_bind : MBind result := λ A B f r,
  match r with
  | Ok a => f a
  | Raise e => Raise e
  end.

(** ** numpy and dictionary primitives *)

(** [d[w]] on a dictionary. *)
Definition dict_get {V : Type} (d : gmap string V) (w : string) : result V :=
  from_option Ok (Raise (KeyError w)) (d !! w).

(** [dict(zip(words, itertools.count()))]: a later duplicate overwrites an
    earlier one. *)
Definition dict_zip_count (words : list string) : gmap string nat :=
  foldl (λ d kv, <[kv.1 := kv.2]> d) ∅ (zip words (seq 0 (length words))).

(** [a[i, j]] on a two-dimensional array. *)
Definition grid_at (g : list (list N)) (i j : nat) : result N :=
  from_option Ok (Raise IndexError) (g !! i ≫= λ row, row !! j).

(** [a[np.ix_(rows, cols)]]: the sub-array in the order of the index lists;
    an index is checked only where an element is fetched. *)
Definition ix_ (g : list (list N)) (rows cols : list nat) : result (list (list N)) :=
  mapM (λ i, mapM (λ j, grid_at g i j) cols) rows.

(** [a.flatten()]. *)
Definition flatten (m : list (list N)) : list N := concat m.

(** [np.array(l)[mask]] with a boolean mask of the same length. *)
Fixpoint mask_select {A : Type} (l : list A) (mask : list bool) : result (list A) :=
  match l, mask with
  | [], [] => Ok []
  | x :: l', b :: mask' =>
      r ← mask_select l' mask'; Ok (if b then x :: r else r)
  | _, _ => Raise IndexError
  end.

(** ** The collaborators outside [src/pattern.py] *)

(** [src.prior.get_word_list], [src.file.get_pattern_matrix_fname] and the
    pattern encoder behind [src.pattern_utils] are imported by the module and
    taken as given. *)
Class Collaborators : Type := {
  get_word_list : string → list string;
  get_pattern_matrix_fname : string → string;
  encode : string → string → N
}.

Section Pattern.
Context {env : Collaborators}.

(** Modelled from the spec: [src.pattern_utils.generate_pattern_matrix]
    is not among the sources; the matrix builder contract gives
    entry [(a, b)] as the encoder's pattern of [words1[a]] against
    [words2[b]]. *)
Definition generate_pattern_matrix (words1 words2 : list string) : list (list N) :=
  map (λ g, map (encode g) words2) words1.

(** Modelled from the spec: [src.block.generate_full_pattern_matrix_in_blocks]
    is not among the sources; the result of the block
    decomposition is independent of the block size and equals the full
    guess-by-answer matrix. *)
Definition generate_full_pattern_matrix_in_blocks (words : list string) : list (list N) :=
  generate_pattern_matrix words words.

(** ** [src/pattern.py] *)

Definition generate_full_pattern_matrix (game_name : string) : M (list (list N)) :=
  let words := get_word_list game_name in
  let pattern_matrix := generate_full_pattern_matrix_in_blocks words in
  _ ← np_save (get_pattern_matrix_fname game_name) pattern_matrix;
  mret pattern_matrix.

(** The body of [if not PATTERN_GRID_DATA:]. *)
Definition load_grid (game_name : string) : M grid_data :=
  let pattern_matrix_fname := get_pattern_matrix_fname game_name in
  present ← path_exists pattern_matrix_fname;
  _ ← (if present : bool then mret [] else generate_full_pattern_matrix game_name);
  g ← np_load pattern_matrix_fname;
  let d := GridData g (dict_zip_count (get_word_list game_name)) in
  _ ← set_cache d;
  mret d.

Definition get_pattern_matrix (words1 words2 : list string) (game_name : string)
  : M (list (list N)) :=
  c ← get_cache;
  d ← match c with
      | None => load_grid game_name
      | Some d => mret d
      end;
  let full_grid := grid d in
  let words_to_index := words_to_index d in
  indices1 ← lift (mapM (dict_get words_to_index) words1);
  indices2 ← lift (mapM (dict_get words_to_index) words2);
  lift (ix_ full_grid indices1 indices2).

Definition get_pattern (guess answer : string) (game_name : string) : M N :=
  c ← get_cache;
  let direct := lift (grid_at (generate_pattern_matrix [guess] [answer]) 0 0) in
  match c with
  | Some d =>
      let saved_words := words_to_index d in
      if bool_decide (is_Some (saved_words !! guess))
         && bool_decide (is_Some (saved_words !! answer))
      then m ← get_pattern_matrix [guess] [answer] game_name;
           lift (grid_at m 0 0)
      else direct
  | None => direct
  end.

(** The console output of [get_possible_words] is not modelled. *)
Definition get_possible_words (guess : string) (pat : N) (word_list : list string)
    (game_name : string) : M (list string) :=
  m ← get_pattern_matrix [guess] word_list game_name;
  let all_patterns := flatten m in
  lift (mask_select word_list (map (λ p, bool_decide (p = pat)) all_patterns)).

(** [buckets[index].append(word)] on the list of 243 buckets. *)
Definition bucket_append (buckets : list (list string)) (index : N) (w : string)
  : result (list (list string)) :=
  match buckets !! N.to_nat index with
  | Some b => Ok (<[N.to_nat index := b ++ [w]]> buckets)
  | None => Raise IndexError
  end.

Definition get_word_buckets (guess : string) (possible_words : list string)
    (game_name : string) : M (list (list string)) :=
  let buckets := replicate (3 ^ 5) [] in
  m ← get_pattern_matrix [guess] possible_words game_name;
  let hashes := flatten m in
  if bool_decide (length hashes = length possible_words)
  then lift (foldl (λ acc iw, b ← acc; bucket_append b iw.1 iw.2)
                   (Ok buckets) (zip hashes possible_words))
  else raise (ValueError "zip() argument 2 is longer than argument 1").

End Pattern.

(** ** Arithmetic on numpy floats *)

(** The operations [src/solver.py] applies to floats and float arrays.
    [flit] reads a literal or converts an integer; [feqb] and [fltb] are
    [==] and [<].  [np_argsort] is [np.argsort] with its default sort, which
    is not stable: which of two equal scores comes first is left open. *)
Class Num (F : Type) : Type := {
  flit : Q → F;
  fadd : F → F → F;
  fsub : F → F → F;
  fmul : F → F → F;
  fdiv : F → F → F;
  fneg : F → F;
  feqb : F → F → bool;
  fltb : F → F → bool;
  np_argsort : list F → list nat
}.

(** [2 ** x] and the base-2 logarithm. *)
Class Transcendental (F : Type) : Type := {
  exp2 : F → F;
  log2 : F → F
}.

Section Arrays.
Context {F : Type} {num : Num F}.

Definition fnat (n : nat) : F := flit (inject_Z (Z.of_nat n)).
Definition fbool (b : bool) : F := if b then fnat 1 else fnat 0.

(** [a.sum()] and the builtin [sum]: accumulate from zero, left to right. *)
Definition fsum (l : list F) : F := foldl fadd (fnat 0) l.

(** [np.zeros(a.shape)]. *)
Definition np_zeros (n : nat) : list F := replicate n (fnat 0).

(** [np.argmin] and [np.argmax]: the first index holding the extreme value;
    [ValueError] on an empty array. *)
Fixpoint arg_best (better : F → F → bool) (l : list F) (i : nat) (best : nat * F)
  : nat :=
  match l with
  | [] => best.1
  | x :: l' => arg_best better l' (S i) (if better x best.2 then (i, x) else best)
  end.

Definition np_argmin (l : list F) : result nat :=
  match l with
  | [] => Raise (ValueError "attempt to get argmin of an empty sequence")
  | x :: l' => Ok (arg_best fltb l' 1 (0, x))
  end.

Definition np_argmax (l : list F) : result nat :=
  match l with
  | [] => Raise (ValueError "attempt to get argmax of an empty sequence")
  | x :: l' => Ok (arg_best (λ a b, fltb b a) l' 1 (0, x))
  end.

(** [l[i]] on a Python list, for a non-negative index. *)
Definition list_get {A : Type} (l : list A) (i : nat) : result A :=
  from_option Ok (Raise IndexError) (l !! i).

(** [a[i] = x] on a numpy array. *)
Definition array_set (a : list F) (i : nat) (x : F) : result (list F) :=
  if bool_decide (i < length a) then Ok (<[i := x]> a) else Raise IndexError.

(** [dict(zip(keys, values, strict=True))]. *)
Definition dict_zip (keys : list string) (values : list F) : result (gmap string F) :=
  if bool_decide (length keys = length values)
  then Ok (foldl (λ d kv, <[kv.1 := kv.2]> d) ∅ (zip keys values))
  else Raise (ValueError "zip() arguments differ in length").

(** [d.get(w, 0)]. *)
Definition dict_get_default (d : gmap string F) (w : string) : F :=
  default (fnat 0) (d !! w).

End Arrays.

(** ** [src/entropy.py], as far as [src/solver.py] relies on it *)

Section Entropy.
Context {F : Type} {num : Num F} {tr : Transcendental F} {env : Collaborators}.

(** Modelled from the spec: [src.entropy.get_pattern_distributions] is not
    among the sources.  For each guess it gives an array of 3^5
    probabilities: at each pattern index, the sum of the weights of the
    possible answers landing in that bucket.  This is the array of one
    guess, from its row of patterns. *)
Definition pattern_distribution (weights : list F) (row : list N) : list F :=
  map (λ p : nat, fsum (map snd (filter (λ pw, N.to_nat pw.1 = p) (zip row weights))))
      (seq 0 (3 ^ 5)).

(** Modelled from the spec: the batch of [get_pattern_distributions], with
    the patterns taken from the cache in one lookup. *)
Definition get_pattern_distributions (allowed_words possible_words : list string)
    (weights : list F) (game_name : string) : M (list (list F)) :=
  m ← get_pattern_matrix allowed_words possible_words game_name;
  mret (map (pattern_distribution weights) m).

(** Modelled from the spec: [src.entropy.entropy_of_distributions] is not
    among the sources.  It is minus the sum of [p * log2 p] over the
    entries that are not zero. *)
Definition entropy_of_distributions (distribution : list F) : F :=
  fneg (fsum (map (λ p, if feqb p (fnat 0) then fnat 0 else fmul p (log2 p))
                  distribution)).

(** Modelled from the spec: [src.entropy.get_entropies] is not among the
    sources.  It is the entropy of the pattern distribution of each guess
    of the batch. *)
Definition get_entropies (allowed_words possible_words : list string)
    (weights : list F) (game_name : string) : M (list F) :=
  dists ← get_pattern_distributions allowed_words possible_words weights game_name;
  mret (map entropy_of_distributions dists).

(** Modelled from the spec: the sizes of the 3^5 buckets of one guess (a
    bucket is the set of possible answers producing one pattern against the
    guess). *)
Definition bucket_sizes (row : list N) : list nat :=
  map (λ p : nat, length (filter (λ q, N.to_nat q = p) row)) (seq 0 (3 ^ 5)).

(** Modelled from the spec: the number of buckets of one guess that are not
    empty. *)
Definition bucket_count (row : list N) : nat :=
  length (filter (λ size, 0 < size) (bucket_sizes row)).

(** Modelled from the spec: [src.entropy.get_bucket_counts] is not among
    the sources.  For each guess of the batch it counts the buckets that are
    not empty; this is the reading under which [get_score_lower_bounds]
    computes the lower bound its docstring announces ([bucket_counts / n] is
    the share of answers found by the second guess at the latest, one per
    bucket at most). *)
Definition get_bucket_counts (allowed_words possible_words : list string)
    (game_name : string) : M (list nat) :=
  m ← get_pattern_matrix allowed_words possible_words game_name;
  mret (map bucket_count m).

End Entropy.

(** ** [src/solver.py] *)

Section Solver.
Context {F : Type} {num : Num F} {tr : Transcendental F} {env : Collaborators}.

Definition get_weights (words : list string) (priors : gmap string F)
  : result (list F) :=
  frequencies ← mapM (dict_get priors) words;
  let total := fsum frequencies in
  if feqb total (fnat 0)
  then Ok (np_zeros (length frequencies))
  else Ok (map (λ x, fdiv x total) frequencies).

Definition entropy_to_expected_score (ent : F) : F :=
  let min_score :=
    fadd (exp2 (fneg ent)) (fmul (fnat 2) (fsub (fnat 1) (exp2 (fneg ent)))) in
  fadd min_score (fdiv (fmul (flit (3 # 2)) ent) (flit (23 # 2))).

(** Lines 51 to 63 of [get_expected_scores]: the scores one guess ahead,
    together with the intermediate values the second half reads again.
    [probs] and [h1s] both have one entry per allowed word, so the
    elementwise numpy expression is a [zip_with]. *)
Record one_ply : Type := OnePly {
  op_weights : list F;
  op_h0 : F;
  op_h1s : list F;
  op_word_to_weight : gmap string F;
  op_scores : list F
}.

Definition one_ply_score (h0 prob h1 : F) : F :=
  fadd prob (fmul (fsub (fnat 1) prob)
                  (fadd (fnat 1) (entropy_to_expected_score (fsub h0 h1)))).

Definition one_ply_scores (allowed_words possible_words : list string)
    (priors : gmap string F) (game_name : string) : M one_ply :=
  if bool_decide (length possible_words = 0)
  then raise (ValueError "No possible words available for guessing.")
  else
    weights ← lift (get_weights possible_words priors);
    let h0 := entropy_of_distributions weights in
    h1s ← get_entropies allowed_words possible_words weights game_name;
    word_to_weight ← lift (dict_zip possible_words weights);
    let probs := map (dict_get_default word_to_weight) allowed_words in
    let expected_scores := zip_with (one_ply_score h0) probs h1s in
    mret (OnePly weights h0 h1s word_to_weight expected_scores).

(** [get_score_lower_bounds]: the elementwise expression for one allowed
    word, and the array of them. *)
Definition lower_bound (n : nat) (in_possible : bool) (bucket_count : nat) : F :=
  let p1 := fdiv (fbool in_possible) (fnat n) in
  let p2 := fsub (fdiv (fnat bucket_count) (fnat n)) p1 in
  let p3 := fsub (fnat 1) (fdiv (fnat bucket_count) (fnat n)) in
  fadd (fadd p1 (fmul (fnat 2) p2)) (fmul (fnat 3) p3).

Definition get_score_lower_bounds (allowed_words possible_words : list string)
    (game_name : string) : M (list F) :=
  if bool_decide (length possible_words = 0)
  then raise (ValueError "No possible words available for guessing.")
  else
    bucket_counts ← get_bucket_counts allowed_words possible_words game_name;
    let n := length possible_words in
    let in_possible := map (λ w, bool_decide (w ∈ possible_words)) allowed_words in
    mret (zip_with (lower_bound n) in_possible bucket_counts).

(** The loops of the module, as folds in [M]. *)
Fixpoint for_each {A B : Type} (l : list A) (acc : B) (body : B → A → M B) : M B :=
  match l with
  | [] => mret acc
  | x :: l' => acc' ← body acc x; for_each l' acc' body
  end.

(** [get_expected_scores] calls [optimal_guess] with [look_two_ahead=False]
    and [optimal_guess] calls [get_expected_scores]; the mutual recursion
    stops after that one round.  Each function is written over the other
    one, and the knot is tied below. *)

(** The new score of one shortlisted candidate (the body of the [for] loop
    of [get_expected_scores]).  [dist], [second_guesses] and [h2s] all have
    one entry per bucket, so the strict [zip]s cannot fail. *)
Definition two_ply_score
    (optimal_guess1 : list string → list string → gmap string F → string → M string)
    (op : one_ply) (allowed_words possible_words : list string)
    (priors : gmap string F) (game_name : string) (i : nat) : M F :=
  let allowed_second_guesses := get_word_list game_name in
  let word_to_weight := op_word_to_weight op in
  let h0 := op_h0 op in
  guess ← lift (list_get allowed_words i);
  h1 ← lift (list_get (op_h1s op) i);
  dists ← get_pattern_distributions [guess] possible_words (op_weights op) game_name;
  dist ← lift (list_get dists 0);
  buckets ← get_word_buckets guess possible_words game_name;
  second_guesses ←
    mapM (λ bucket, optimal_guess1 allowed_second_guesses bucket priors game_name)
         buckets;
  h2s ← mapM (λ gb : string * list string,
                ws ← lift (get_weights gb.2 priors);
                es ← get_entropies [gb.1] gb.2 ws game_name;
                lift (list_get es 0))
             (zip second_guesses buckets);
  let prob := dict_get_default word_to_weight guess in
  let prob2s := map (dict_get_default word_to_weight) second_guesses in
  mret (fsum
    [ fmul (fnat 1) prob;
      fmul (fmul (fnat 2) (fsub (fnat 1) prob))
           (fsum (zip_with fmul dist prob2s));
      fmul (fsub (fnat 1) prob)
           (fadd (fnat 2)
              (fsum (zip_with
                 (λ (pw : F * F) (H2 : F),
                    fmul (fmul pw.1 (fsub (fnat 1) pw.2))
                         (entropy_to_expected_score (fsub (fsub h0 h1) H2)))
                 (zip dist prob2s) h2s))) ]).

Definition get_expected_scores_over
    (optimal_guess1 : list string → list string → gmap string F → string → M string)
    (allowed_words possible_words : list string) (priors : gmap string F)
    (game_name : string) (look_two_ahead : bool)
    (n_top_candidates_for_two_step : nat) : M (list F) :=
  op ← one_ply_scores allowed_words possible_words priors game_name;
  let expected_scores := op_scores op in
  if negb look_two_ahead then mret expected_scores
  else
    let sorted_indices := np_argsort expected_scores in
    let expected_scores := map (λ x, fadd x (fnat 1)) expected_scores in
    for_each (take n_top_candidates_for_two_step sorted_indices) expected_scores
      (λ expected_scores i,
         x ← two_ply_score optimal_guess1 op allowed_words possible_words
               priors game_name i;
         lift (array_set expected_scores i x)).

Definition optimal_guess_over
    (get_expected_scores' : list string → list string → gmap string F → string
                            → bool → M (list F))
    (allowed_words possible_words : list string) (priors : gmap string F)
    (game_name : string)
    (look_two_ahead optimize_for_uniform_distribution purely_maximize_information : bool)
  : M string :=
  if purely_maximize_information then
    match possible_words with
    | [only] => mret only
    | _ =>
        weights ← lift (get_weights possible_words priors);
        entropies ← get_entropies allowed_words possible_words weights game_name;
        i ← lift (np_argmax entropies);
        lift (list_get allowed_words i)
    end
  else if bool_decide (length allowed_words = 0)
  then raise (ValueError "No allowed words available.")
  else
    expected_scores ←
      (if optimize_for_uniform_distribution
       then get_score_lower_bounds allowed_words possible_words game_name
       else get_expected_scores' allowed_words possible_words priors game_name
              look_two_ahead);
    if bool_decide (length expected_scores = 0)
    then raise (ValueError "No expected scores calculated for argmin.")
    else i ← lift (np_argmin expected_scores);
         lift (list_get allowed_words i).

(** The call [optimal_guess(..., look_two_ahead=False)] made from inside
    [get_expected_scores]: it reaches [get_expected_scores] with
    [look_two_ahead=False], which returns before the loop. *)
Definition optimal_guess_one_ahead (allowed_words possible_words : list string)
    (priors : gmap string F) (game_name : string) : M string :=
  optimal_guess_over
    (λ allowed possible priors game _,
       op ← one_ply_scores allowed possible priors game; mret (op_scores op))
    allowed_words possible_words priors game_name false false false.

Definition get_expected_scores (allowed_words possible_words : list string)
    (priors : gmap string F) (game_name : string) (look_two_ahead : bool)
    (n_top_candidates_for_two_step : nat) : M (list F) :=
  get_expected_scores_over optimal_guess_one_ahead allowed_words possible_words
    priors game_name look_two_ahead n_top_candidates_for_two_step.

Definition optimal_guess (allowed_words possible_words : list string)
    (priors : gmap string F) (game_name : string)
    (look_two_ahead optimize_for_uniform_distribution purely_maximize_information : bool)
  : M string :=
  optimal_guess_over
    (λ allowed possible priors game look_two_ahead,
       get_expected_scores allowed possible priors game look_two_ahead 25)
    allowed_words possible_words priors game_name
    look_two_ahead optimize_for_uniform_distribution purely_maximize_information.

(** The [while guess != answer] loop of [brute_force_optimal_guess], with a
    bound on the number of turns: [Diverges] stands for a game still running
    after [fuel] turns. *)
Fixpoint play (fuel : nat) (all_words : list string) (priors : gmap string F)
    (game_name : string) (answer guess : string) (possibilities : list string)
    (score : nat) : M nat :=
  match fuel with
  | 0 => raise Diverges
  | S fuel' =>
      if bool_decide (guess = answer) then mret score
      else
        pat ← get_pattern guess answer game_name;
        possibilities ← get_possible_words guess pat possibilities game_name;
        guess ← optimal_guess all_words possibilities priors game_name
                  false true false;
        play fuel' all_words priors game_name answer guess possibilities (score + 1)
  end.

(** One round of the [for next_guess in iterable] loop: the scores of the
    games started with [next_guess], one game per possible answer, and
    their [np.mean]. *)
Definition game_scores (fuel : nat) (all_words possible_words : list string)
    (priors : gmap string F) (game_name : string) (next_guess : string)
  : M (list nat) :=
  mapM (λ answer, play fuel all_words priors game_name answer next_guess
                    possible_words 1)
       possible_words.

Definition np_mean (scores : list nat) : F :=
  fdiv (fnat (foldr Nat.add 0 scores)) (fnat (length scores)).

Definition true_average_score (fuel : nat) (all_words possible_words : list string)
    (priors : gmap string F) (game_name : string) (next_guess : string) : M F :=
  scores ← game_scores fuel all_words possible_words priors game_name next_guess;
  mret (np_mean scores).

Definition brute_force_optimal_guess (fuel : nat) (all_words possible_words : list string)
    (priors : gmap string F) (game_name : string) (n_top_picks : nat) : M string :=
  if bool_decide (length possible_words = 0) then lift (list_get all_words 0)
  else
    expected_scores ← get_score_lower_bounds all_words possible_words game_name;
    top_choices ← lift (mapM (list_get all_words)
                             (take n_top_picks (np_argsort expected_scores)));
    true_average_scores ←
      mapM (true_average_score fuel all_words possible_words priors game_name)
           top_choices;
    i ← lift (np_argmin true_average_scores);
    lift (list_get top_choices i).

End Solver.

(** ** The order of the lower bounds *)

(** The lower bound of a candidate is computed from [n] possible answers,
    whether the candidate is one of them, and its bucket count [k]; in
    exact arithmetic it is [3 - (k + b) / n] with [b] one for a possible
    answer and zero otherwise.  [bounds_ordered_by_merit n] checks, over
    all pairs of candidates that [n] possible answers allow, that the one
    with the larger [k + b] has the bound that compares strictly smaller,
    and not the other way round: rounding does not invert the order. *)
Section Merit.
Context {F : Type} {num : Num F}.

Definition merit_pairs (n : nat) : list (bool * nat) :=
  b ← [false; true]; (λ k, (b, k)) <$> seq 0 (S n).

Definition separates (n : nat) (x y : bool * nat) : bool :=
  if decide (x.2 + Nat.b2n x.1 < y.2 + Nat.b2n y.1)
  then fltb (lower_bound n y.1 y.2) (lower_bound n x.1 x.2)
       && negb (fltb (lower_bound n x.1 x.2) (lower_bound n y.1 y.2))
  else true.

Definition bounds_ordered_by_merit (n : nat) : bool :=
  forallb (λ x, forallb (separates n x) (merit_pairs n)) (merit_pairs n).

(** The same for every number of possible answers from 1 to [N]. *)
Definition bounds_ordered_upto (N : nat) : bool :=
  forallb bounds_ordered_by_merit (seq 1 N).

End Merit.

(** ** Exact arithmetic: the rationals as a [Num] *)

(** The rationals idealise the floats: no rounding, no overflow.  They
    are used where what is stated does not depend on rounding (which call
    raises, that a loop ends, bounds on integer scores); what numpy
    computes is [float64_num] below. *)

(** A stable insertion sort of the indices.  The default sort of
    [np.argsort] is not stable: among equal scores numpy may return the
    indices in another order.  What is stated about [np_argsort] uses only
    that it returns each index once. *)
Fixpoint insert_index {A : Type} (lt : A → A → bool) (ix : nat * A)
    (l : list (nat * A)) : list (nat * A) :=
  match l with
  | [] => [ix]
  | jy :: l' => if lt jy.2 ix.2 then jy :: insert_index lt ix l' else ix :: jy :: l'
  end.

Definition stable_argsort {A : Type} (lt : A → A → bool) (l : list A) : list nat :=
  map fst (foldr (insert_index lt) [] (zip (seq 0 (length l)) l)).

Definition Q_ltb (x y : Q) : bool := negb (Qle_bool y x).

#[export] Instance Q_num : Num Q := {|
  flit := λ q, q;
  fadd := Qplus;
  fsub := Qminus;
  fmul := Qmult;
  fdiv := Qdiv;
  fneg := Qopp;
  feqb := Qeq_bool;
  fltb := Q_ltb;
  np_argsort := stable_argsort Q_ltb
|}.

(** The uniform-distribution policy and the brute-force verifier never call
    [2 ** x] or [log2]; statements about them hold for every interpretation
    of the two functions, and examples run them with this one. *)
Definition no_transcendentals : Transcendental Q :=
  {| exp2 := λ _, 0%Q; log2 := λ _, 0%Q |}.

(** ** numpy's float64: IEEE 754 binary64, rounding to nearest even *)

(** An integer as a float, as numpy converts an [int64]; exact below 2^53. *)
Definition float_of_Z (z : Z) : float :=
  match z with
  | Z0 => PrimFloat.zero
  | Zpos _ => PrimFloat.of_uint63 (Uint63.of_Z z)
  | Zneg p => PrimFloat.opp (PrimFloat.of_uint63 (Uint63.of_Z (Zpos p)))
  end.

(** A literal is read as numerator over denominator, which is exact for the
    literals of [src/solver.py] (integers, 1.5 and 11.5).  [np_argsort]
    sorts as above; the order numpy gives to equal scores is not modelled.
    [.sum()] is modelled as a sum from left to right, which is what numpy
    does for fewer than eight entries. *)
#[export] Instance float64_num : Num float := {|
  flit := λ q, PrimFloat.div (float_of_Z (Qnum q)) (float_of_Z (Zpos (Qden q)));
  fadd := PrimFloat.add;
  fsub := PrimFloat.sub;
  fmul := PrimFloat.mul;
  fdiv := PrimFloat.div;
  fneg := PrimFloat.opp;
  feqb := PrimFloat.eqb;
  fltb := PrimFloat.ltb;
  np_argsort := stable_argsort PrimFloat.ltb
|}.

(** Powers of two and logarithms are left to the platform's libm and are
    not modelled in float64; the code that never calls them is run with
    this placeholder. *)
Definition float64_no_transcendentals : Transcendental float :=
  {| exp2 := λ _, PrimFloat.zero; log2 := λ _, PrimFloat.zero |}.




(** ** The real numbers as a [Num] with powers and logarithms *)

(** The real numbers idealise the floats where [2 ** x] and [log2] are
    needed, which float64 leaves to the platform. *)

Definition R_eqb (x y : R) : bool := if Req_dec_T x y then true else false.
Definition R_ltb (x y : R) : bool := if Rlt_dec x y then true else false.

#[export] Instance R_num : Num R := {|
  flit := Q2R;
  fadd := Rplus;
  fsub := Rminus;
  fmul := Rmult;
  fdiv := Rdiv;
  fneg := Ropp;
  feqb := R_eqb;
  fltb := R_ltb;
  np_argsort := stable_argsort R_ltb
|}.

#[export] Instance R_transcendental : Transcendental R := {|
  exp2 := Rpower 2;
  log2 := λ x, (ln x / ln 2)%R
|}.

(** ** A pattern encoder and a small game, for examples *)

(** Modelled from the spec: the pattern encoder of [src.pattern_utils] is
    not among the sources.  Exact matches are marked first and
    taken out of the answer's letters; then, in position order, a letter
    that is still available in the answer is marked misplaced and taken
    out; the digits (0 miss, 1 misplaced, 2 exact) are combined as the sum
    of [digit_i * 3^i]. *)
Fixpoint remove_one (c : ascii) (l : list ascii) : option (list ascii) :=
  match l with
  | [] => None
  | d :: l' => if bool_decide (c = d) then Some l'
               else cons d <$> remove_one c l'
  end.

Fixpoint second_pass (guess : list (ascii * bool)) (remaining : list ascii) : list N :=
  match guess with
  | [] => []
  | (c, true) :: guess' => 2%N :: second_pass guess' remaining
  | (c, false) :: guess' =>
      match remove_one c remaining with
      | Some remaining' => 1%N :: second_pass guess' remaining'
      | None => 0%N :: second_pass guess' remaining
      end
  end.

Definition encode_digits (guess answer : list ascii) : list N :=
  let exact := zip_with (λ c d, bool_decide (c = d)) guess answer in
  let remaining := map fst (filter (λ cb, cb.2 = false) (zip answer exact)) in
  second_pass (zip guess exact) remaining.

Definition spec_encode (guess answer : string) : N :=
  foldr (λ d acc, (d + 3 * acc)%N) 0%N
        (encode_digits (list_ascii_of_string guess) (list_ascii_of_string answer)).

(** Two games with their word lists: the four words of the spec's
    end-to-end scenario, and a second list. *)
Definition toy : Collaborators := {|
  get_word_list := λ game_name,
    if bool_decide (game_name = "abc") then ["abc"; "abd"; "xyz"; "xyy"]
    else ["no"; "on"];
  get_pattern_matrix_fname := λ game_name, game_name +:+ ".npy";
  encode := spec_encode
|}.

(** A fresh process: nothing cached, nothing on disk. *)
Definition fresh : world := World None ∅.

(** The words of the game "abc", and the world after a first query for
    that game. *)
Definition abc_words : list string := ["abc"; "abd"; "xyz"; "xyy"].

Definition after_abc : world :=
  (get_pattern_matrix (env := toy) [] [] "abc" fresh).2.

(** A game of six words: five possible answers and one more word to
    open with, which shows three different patterns against the five. *)
Definition six_words : list string := ["abc"; "abd"; "aef"; "aeg"; "hij"; "abx"].

Definition five_answers : list string := ["abc"; "abd"; "aef"; "aeg"; "hij"].

Definition six : Collaborators := {|
  get_word_list := λ _, six_words;
  get_pattern_matrix_fname := λ game_name, game_name +:+ ".npy";
  encode := spec_encode
|}.

Definition after_six : world :=
  (get_pattern_matrix (env := six) [] [] "six" fresh).2.

(** ** Vocabulary of the statements *)

Section Vocabulary.
Context {env : Collaborators}.

(** What one lookup in a resident entry returns. *)
Definition lookup_matrix (d : grid_data) (words1 words2 : list string)
  : result (list (list N)) :=
  indices1 ← mapM (dict_get (words_to_index d)) words1;
  indices2 ← mapM (dict_get (words_to_index d)) words2;
  ix_ (grid d) indices1 indices2.

(** The pattern the resident entry stores for a pair of words, if any. *)
Definition cached_pattern (d : grid_data) (guess answer : string) : option N :=
  i ← words_to_index d !! guess;
  j ← words_to_index d !! answer;
  row ← grid d !! i;
  row !! j.

(** The entry a first query for [game_name] makes resident: the saved grid
    if there is one, a newly built grid otherwise, and the index of that
    game's word list. *)
Definition entry_for (game_name : string) (s : world) : grid_data :=
  GridData
    (default (generate_full_pattern_matrix_in_blocks (get_word_list game_name))
             (disk s !! get_pattern_matrix_fname game_name))
    (dict_zip_count (get_word_list game_name)).

(** The entry a query made in [s] answers from, and the world it leaves. *)
Definition resident (game_name : string) (s : world) : grid_data :=
  default (entry_for game_name s) (PATTERN_GRID_DATA s).

Definition loaded (game_name : string) (s : world) : world :=
  match PATTERN_GRID_DATA s with
  | Some _ => s
  | None =>
      World (Some (entry_for game_name s))
            (<[get_pattern_matrix_fname game_name := grid (entry_for game_name s)]>
               (disk s))
  end.

End Vocabulary.

(** The reading of the cache under which a query always answers from the
    entry of the game it names: after the query, the resident entry is the
    one of that game. *)
Definition requested_entry_resident {env : Collaborators}
    (words1 words2 : list string) (game_name : string) (s : world) : Prop :=
  let s' := (get_pattern_matrix words1 words2 game_name s).2 in
  PATTERN_GRID_DATA s' = Some (entry_for game_name s).

(** The resident entry covers a batch: every word of the batch is in the
    index and the grid holds a pattern for every guess-answer pair. *)
Definition covers (d : grid_data) (words1 words2 : list string) : Prop :=
  Forall (λ w, is_Some (words_to_index d !! w)) (words1 ++ words2)
  ∧ Forall (λ g, Forall (λ a, is_Some (cached_pattern d g a)) words2) words1.

(** The row of cached patterns of one guess against a list of answers. *)
Definition pattern_row (d : grid_data) (answers : list string) (guess : string)
  : list N :=
  omap (cached_pattern d guess) answers.

(** The entropy of the pattern distribution of one guess, read off the
    resident entry: what [get_entropies] gives for the guess.  It is the
    information the guess is expected to give, zero for a guess that puts
    every possible answer in one bucket; [solver.py] calls it [h1], and
    [h0 - h1] estimates the entropy that is left after the guess. *)
Definition pattern_entropy {F : Type} {num : Num F} {tr : Transcendental F}
    (d : grid_data)
    (possible_words : list string) (weights : list F) (guess : string) : F :=
  entropy_of_distributions
    (pattern_distribution weights (pattern_row d possible_words guess)).



(** A grid as the matrix builder makes it, as far as the words of a list
    go: every word is in the index, every pair has a pattern below 3^5, and
    only a word itself gives the pattern a word has against itself. *)
Definition genuine_grid (d : grid_data) (words : list string) : Prop :=
  Forall (λ g,
    is_Some (words_to_index d !! g)
    ∧ Forall (λ a, ∃ p, cached_pattern d g a = Some p
                        ∧ (p < 3 ^ 5)%N
                        ∧ (cached_pattern d g g = Some p → a = g))
             words)
    words.

(** ** The pattern display of [src/pattern.py] *)

(** Modelled from the spec: the digit constants of [src.pattern_utils] are
    not among the sources; a digit is 0 for a miss, 1 for a misplaced letter
    and 2 for an exact one. *)
Definition MISS : N := 0.
Definition MISPLACED : N := 1.
Definition EXACT : N := 2.

(** The loop of [pattern_to_int_list], [n] rounds of it. *)
Fixpoint int_list_loop (n : nat) (curr : N) : list N :=
  match n with
  | 0 => []
  | S n' => (curr mod 3)%N :: int_list_loop n' (curr / 3)%N
  end.

Definition pattern_to_int_list (pat : N) : list N := int_list_loop 5 pat.

(** The dictionary [d] of [pattern_to_string]; a later key overwrites an
    equal earlier one. *)
Definition glyphs : gmap N string :=
  <[EXACT := "🟩"]> (<[MISPLACED := "🟨"]> (<[MISS := "⬛"]> ∅)).

(** [d[x]] on that dictionary. *)
Definition glyph_of (x : N) : result string :=
  from_option Ok (Raise (KeyError (pretty x))) (glyphs !! x).

(** [sep.join(parts)]. *)
Fixpoint str_join (sep : string) (parts : list string) : string :=
  match parts with
  | [] => ""
  | [part] => part
  | part :: parts' => part +:+ sep +:+ str_join sep parts'
  end.

Definition pattern_to_string (pat : N) : result string :=
  parts ← mapM glyph_of (pattern_to_int_list pat);
  Ok (str_join "" parts).

Definition patterns_to_string (patterns : list N) : result string :=
  lines ← mapM pattern_to_string patterns;
  Ok (str_join (String "010" "") lines).

(** The pattern a list of base-3 digits stands for, lowest digit first. *)
Definition digits_value (digits : list N) : N :=
  foldr (λ d acc, (d + 3 * acc)%N) 0%N digits.

(** Exceptions and results can be compared. *)
#[export] Instance error_eq_dec : EqDecision error.
Proof. solve_decision. Defined.

#[export] Instance result_eq_dec {A : Type} `{EqDecision A} : EqDecision (result A).
Proof. solve_decision. Defined.

(** A process that finds a file saved for the game "abc" whose only entry
    is not a pattern. *)
Definition stale : world :=
  World None (<["abc.npy" := [[250%N]]]> ∅).

(** * Properties *)

(** Bucket counts and bounds range over all 3^5 patterns; they stay folded
    under simplification. *)
#[global] Arguments bucket_count : simpl never.
#[global] Arguments bucket_sizes : simpl never.
#[global] Arguments pattern_distribution : simpl never.
#[global] Arguments lower_bound : simpl never.

(** ** The pattern cache *)

Section PatternFacts.
Context {env : Collaborators}.

Lemma bind_run {A B : Type} (m : M A) (f : A → M B) (s : world) :
  (m ≫= f) s = match m s with
               | (Ok a, s') => f a s'
               | (Raise e, s') => (Raise e, s')
               end.
Proof. reflexivity. Qed.

Lemma load_grid_run game_name dk :
  load_grid game_name (World None dk)
  = (Ok (entry_for game_name (World None dk)), loaded game_name (World None dk)).
Proof.
  unfold load_grid, loaded, entry_for, generate_full_pattern_matrix.
  cbv beta iota delta [mbind M_bind mret M_ret path_exists np_save np_load set_cache
                       PATTERN_GRID_DATA disk grid].
  destruct (dk !! get_pattern_matrix_fname game_name) as [g|] eqn:E; simpl.
  - rewrite ?E; simpl. by rewrite insert_id.
  - rewrite ?lookup_insert_eq; simpl. done.
Qed.

Lemma get_pattern_matrix_run words1 words2 game_name s :
  get_pattern_matrix words1 words2 game_name s
  = (lookup_matrix (resident game_name s) words1 words2, loaded game_name s).
Proof.
  unfold get_pattern_matrix, lookup_matrix.
  rewrite bind_run. unfold get_cache at 1.
  destruct s as [[d|] dk]; cbn [PATTERN_GRID_DATA].
  - rewrite bind_run. unfold resident, loaded; cbn.
    destruct (mapM (dict_get (words_to_index d)) words1) as [i1|e]; cbn; [|done].
    destruct (mapM (dict_get (words_to_index d)) words2) as [i2|e]; cbn; done.
  - rewrite bind_run, load_grid_run. unfold resident; cbn [PATTERN_GRID_DATA default].
    generalize (loaded game_name (World None dk)); intros s'.
    generalize (entry_for game_name (World None dk)); intros d.
    cbn.
    destruct (mapM (dict_get (words_to_index d)) words1) as [i1|e]; cbn; [|done].
    destruct (mapM (dict_get (words_to_index d)) words2) as [i2|e]; cbn; done.
Qed.

Lemma loaded_resident game_name s :
  PATTERN_GRID_DATA (loaded game_name s) = Some (resident game_name s).
Proof. unfold loaded, resident. by destruct s as [[d|] dk]. Qed.

Lemma loaded_idem game_name game_name' s :
  loaded game_name' (loaded game_name s) = loaded game_name s.
Proof. unfold loaded. by destruct s as [[d|] dk]. Qed.

Lemma resident_loaded game_name game_name' s :
  resident game_name' (loaded game_name s) = resident game_name s.
Proof. unfold loaded, resident. by destruct s as [[d|] dk]. Qed.


Lemma dict_get_Some {V : Type} (d : gmap string V) (w : string) (v : V) :
  d !! w = Some v → dict_get d w = Ok v.
Proof. unfold dict_get. by intros ->. Qed.

(** One row of the resident grid, for a guess and words that it covers. *)
Lemma lookup_row d guess word_list :
  is_Some (words_to_index d !! guess) →
  Forall (λ w, is_Some (cached_pattern d guess w)) word_list →
  lookup_matrix d [guess] word_list = Ok [omap (cached_pattern d guess) word_list].
Proof.
  intros [i Hi] Hall. unfold lookup_matrix. cbn.
  rewrite (dict_get_Some _ _ _ Hi). cbn.
  induction Hall as [|w l [p Hp] Hall IH]; [done|].
  cbn. rewrite Hp. cbn.
  unfold cached_pattern in Hp. rewrite Hi in Hp. cbn in Hp.
  destruct (words_to_index d !! w) as [j|] eqn:Hj; [|done]. cbn in Hp.
  rewrite (dict_get_Some _ _ _ Hj). cbn.
  destruct (mapM (dict_get (words_to_index d)) l) as [js|e]; [|done].
  cbn in IH |- *.
  assert (grid_at (grid d) i j = Ok p) as -> by (unfold grid_at; by rewrite Hp).
  cbn.
  destruct (mapM (λ j0, grid_at (grid d) i j0) js) as [ps|e]; cbn in IH |- *; [|done].
  unfold mret, result_ret in *. by simplify_eq.
Qed.

Lemma mask_select_filter d guess pat word_list :
  Forall (λ w, is_Some (cached_pattern d guess w)) word_list →
  mask_select word_list
    (map (λ p, bool_decide (p = pat)) (omap (cached_pattern d guess) word_list))
  = Ok (filter (λ w, cached_pattern d guess w = Some pat) word_list).
Proof.
  induction 1 as [|w l [p Hp] Hall IH]; [done|].
  rewrite filter_cons. cbn. rewrite Hp. cbn. rewrite IH. cbn.
  destruct (decide (p = pat)) as [->|Hne].
  - rewrite bool_decide_true by done. by rewrite decide_True.
  - rewrite bool_decide_false by done. rewrite decide_False; [done|congruence].
Qed.

Lemma get_possible_words_run guess pat word_list game_name s :
  is_Some (words_to_index (resident game_name s) !! guess) →
  Forall (λ w, is_Some (cached_pattern (resident game_name s) guess w)) word_list →
  get_possible_words guess pat word_list game_name s
  = (Ok (filter (λ w, cached_pattern (resident game_name s) guess w = Some pat)
                word_list),
     loaded game_name s).
Proof.
  intros Hg Hall. unfold get_possible_words.
  rewrite bind_run, get_pattern_matrix_run, (lookup_row _ _ _ Hg Hall).
  unfold lift, flatten. cbn. rewrite app_nil_r.
  by rewrite mask_select_filter.
Qed.

Lemma get_pattern_run guess answer game_name s :
  get_pattern guess answer game_name s
  = (match PATTERN_GRID_DATA s with
     | Some d =>
         match words_to_index d !! guess, words_to_index d !! answer with
         | Some i, Some j => grid_at (grid d) i j
         | _, _ => Ok (encode guess answer)
         end
     | None => Ok (encode guess answer)
     end, s).
Proof.
  unfold get_pattern. rewrite bind_run. unfold get_cache at 1.
  destruct s as [[d|] dk]; cbn [PATTERN_GRID_DATA]; [|done].
  destruct (words_to_index d !! guess) as [i|] eqn:Hi; cbn; [|done].
  destruct (words_to_index d !! answer) as [j|] eqn:Hj; cbn; [|done].
  rewrite bind_run, get_pattern_matrix_run. unfold lookup_matrix, resident, loaded.
  cbn. rewrite (dict_get_Some _ _ _ Hi), (dict_get_Some _ _ _ Hj). cbn.
  by destruct (grid_at (grid d) i j).
Qed.


(** C1 (as amended). The cache holds at most one entry, and it is filled
    only while it is empty: a query made with a populated cache answers from
    the resident entry and leaves the world as it is, whatever game
    identifier it names; a query made with an empty cache makes the entry of
    the queried game resident and answers from it. *)
Theorem get_pattern_matrix_never_evicts words1 words2 game_name s :
  get_pattern_matrix words1 words2 game_name s
  = match PATTERN_GRID_DATA s with
    | Some d => (lookup_matrix d words1 words2, s)
    | None =>
        let d := entry_for game_name s in
        (lookup_matrix d words1 words2,
         World (Some d) (<[get_pattern_matrix_fname game_name := grid d]> (disk s)))
    end.
Proof.
  rewrite get_pattern_matrix_run. unfold resident, loaded.
  by destruct (PATTERN_GRID_DATA s).
Qed.

(** C7. Filtering is idempotent: when the resident grid covers the guess
    and the words of the list, filtering returns a list, and filtering that
    list again with the same guess and pattern returns the same list. *)
Theorem get_possible_words_idempotent guess pat word_list game_name s :
  is_Some (words_to_index (resident game_name s) !! guess) →
  Forall (λ w, is_Some (cached_pattern (resident game_name s) guess w)) word_list →
  ∃ kept s',
    get_possible_words guess pat word_list game_name s = (Ok kept, s')
    ∧ get_possible_words guess pat kept game_name s' = (Ok kept, s').
Proof.
  intros Hg Hall.
  eexists _, _. split; [by apply get_possible_words_run|].
  rewrite get_possible_words_run; rewrite ?resident_loaded, ?loaded_idem.
  - f_equal. f_equal. rewrite list_filter_filter.
    apply list_filter_iff. tauto.
  - done.
  - apply Forall_forall. intros w [_ Hw]%list_elem_of_filter.
    by apply (proj1 (Forall_forall _ _) Hall).
Qed.

(** C8. The single-pair path never changes the world.  With a populated
    cache whose index has both words it returns the entry the resident grid
    stores for them; in every other case it returns what the encoder gives
    for the pair. *)
Theorem get_pattern_cached_or_direct guess answer game_name s :
  get_pattern guess answer game_name s
  = (match PATTERN_GRID_DATA s with
     | Some d =>
         if bool_decide (is_Some (words_to_index d !! guess)
                         ∧ is_Some (words_to_index d !! answer))
         then from_option Ok (Raise IndexError) (cached_pattern d guess answer)
         else grid_at (generate_pattern_matrix [guess] [answer]) 0 0
     | None => grid_at (generate_pattern_matrix [guess] [answer]) 0 0
     end, s)
  ∧ grid_at (generate_pattern_matrix [guess] [answer]) 0 0 = Ok (encode guess answer).
Proof.
  split; [|done]. rewrite get_pattern_run.
  destruct (PATTERN_GRID_DATA s) as [d|]; [|done].
  unfold cached_pattern. case_bool_decide as Hb.
  - destruct Hb as [[i Hi] [j Hj]]. by rewrite Hi, Hj.
  - destruct (words_to_index d !! guess) as [i|] eqn:Hi; [|done].
    destruct (words_to_index d !! answer) as [j|] eqn:Hj; [|done].
    exfalso. apply Hb. eauto.
Qed.

(** C10. When the resident grid covers the guess and the words of the
    list, [get_possible_words] returns exactly the words of the list whose
    cached pattern against the guess is the given one, in the order of the
    list. *)
Theorem get_possible_words_exact guess pat word_list game_name s :
  is_Some (words_to_index (resident game_name s) !! guess) →
  Forall (λ w, is_Some (cached_pattern (resident game_name s) guess w)) word_list →
  ∃ kept,
    (get_possible_words guess pat word_list game_name s).1 = Ok kept
    ∧ kept = filter (λ w, cached_pattern (resident game_name s) guess w = Some pat)
                    word_list
    ∧ sublist kept word_list
    ∧ ∀ w, w ∈ kept
           ↔ w ∈ word_list ∧ cached_pattern (resident game_name s) guess w = Some pat.
Proof.
  intros Hg Hall. eexists. rewrite get_possible_words_run by done.
  split; [done|]. split; [done|]. split.
  - apply sublist_filter.
  - intros w. rewrite list_elem_of_filter. tauto.
Qed.

End PatternFacts.

(** C1, counterexample.  After a first query for the game "abc", a query
    for another game leaves the entry of "abc" resident: the words of the
    second game are not even in its index. *)
Lemma switching_games_keeps_grid :
  ¬ requested_entry_resident (env := toy) ["no"] ["on"] "two" after_abc
  ∧ (get_pattern_matrix (env := toy) ["no"] ["on"] "two" after_abc).1
    = Raise (KeyError "no").
Proof.
  split; [|by vm_compute].
  unfold requested_entry_resident, after_abc. rewrite !get_pattern_matrix_run.
  cbn [fst snd]. rewrite loaded_resident. intros Heq.
  apply (f_equal (λ o, d ← o; words_to_index d !! "no")) in Heq.
  vm_compute in Heq. discriminate Heq.
Qed.

Lemma get_possible_words_idempotent_witness :
  ∃ kept s',
    get_possible_words (env := toy) "abc" 8 ["abd"; "xyz"; "abc"] "abc" fresh
    = (Ok kept, s')
    ∧ get_possible_words (env := toy) "abc" 8 kept "abc" s' = (Ok kept, s').
Proof.
  apply (get_possible_words_idempotent (env := toy)).
  - vm_compute. eauto.
  - repeat constructor; vm_compute; eauto.
Defined.

Lemma get_possible_words_exact_witness :
  ∃ kept,
    (get_possible_words (env := toy) "abc" 8 ["abd"; "xyz"; "abc"] "abc" fresh).1
    = Ok kept
    ∧ kept = filter (λ w, cached_pattern (resident (env := toy) "abc" fresh) "abc" w
                          = Some 8%N)
                    ["abd"; "xyz"; "abc"]
    ∧ sublist kept ["abd"; "xyz"; "abc"]
    ∧ ∀ w, w ∈ kept
           ↔ w ∈ ["abd"; "xyz"; "abc"]
             ∧ cached_pattern (resident (env := toy) "abc" fresh) "abc" w = Some 8%N.
Proof.
  apply (get_possible_words_exact (env := toy)).
  - vm_compute. eauto.
  - repeat constructor; vm_compute; eauto.
Defined.

(** ** Batched lookups *)

Section BatchFacts.
Context {env : Collaborators}.

Lemma mapM_dict_get_indexed {V : Type} (d : gmap string V) (ws : list string) :
  Forall (λ w, is_Some (d !! w)) ws →
  mapM (dict_get d) ws = Ok (omap (d !!.) ws).
Proof.
  induction 1 as [|w ws [i Hi] _ IH]; [done|].
  cbn. rewrite (dict_get_Some _ _ _ Hi), Hi. cbn. by rewrite IH.
Qed.

Lemma ix_row_covered d guess i answers :
  words_to_index d !! guess = Some i →
  Forall (λ a, is_Some (cached_pattern d guess a)) answers →
  mapM (λ j, grid_at (grid d) i j) (omap (words_to_index d !!.) answers)
  = Ok (pattern_row d answers guess).
Proof.
  intros Hi. unfold pattern_row.
  induction 1 as [|a answers [p Hp] _ IH]; [done|].
  cbn. rewrite Hp. unfold cached_pattern in Hp. rewrite Hi in Hp. cbn in Hp.
  destruct (words_to_index d !! a) as [j|]; [|done]. cbn in Hp |- *.
  assert (grid_at (grid d) i j = Ok p) as ->.
  { unfold grid_at. destruct (grid d !! i); [|done]. cbn in Hp |- *. by rewrite Hp. }
  cbn. by rewrite IH.
Qed.

Lemma lookup_matrix_covered d words1 words2 :
  covers d words1 words2 →
  lookup_matrix d words1 words2 = Ok (map (pattern_row d words2) words1).
Proof.
  intros [[Hidx1 Hidx2]%Forall_app Hpat]. unfold lookup_matrix.
  rewrite !mapM_dict_get_indexed by done. cbn. unfold ix_.
  induction Hpat as [|g words1 Hg Hpat IH]; [done|].
  apply Forall_cons in Hidx1 as [[i Hi] Hidx1].
  cbn. rewrite Hi. cbn. rewrite (ix_row_covered _ _ _ _ Hi Hg). cbn.
  by rewrite (IH Hidx1).
Qed.

Lemma bind_get_pattern_matrix {A : Type} words1 words2 game_name
    (k : list (list N) → M A) s :
  (get_pattern_matrix words1 words2 game_name ≫= k) s
  = match lookup_matrix (resident game_name s) words1 words2 with
    | Ok m => k m (loaded game_name s)
    | Raise e => (Raise e, loaded game_name s)
    end.
Proof. by rewrite bind_run, get_pattern_matrix_run. Qed.

End BatchFacts.

(** ** Weights *)

Section WeightFacts.
Context {F : Type} {num : Num F}.

Lemma get_weights_run (words : list string) (priors : gmap string F) :
  Forall (λ w, is_Some (priors !! w)) words →
  get_weights words priors
  = Ok (if feqb (fsum (omap (priors !!.) words)) (fnat 0)
        then np_zeros (length words)
        else map (λ x, fdiv x (fsum (omap (priors !!.) words)))
                 (omap (priors !!.) words))
    ∧ length (omap (priors !!.) words) = length words.
Proof.
  intros Hall. unfold get_weights.
  rewrite mapM_dict_get_indexed by done. cbn [mbind result_bind].
  assert (length (omap (priors !!.) words) = length words) as Hlen.
  { clear -Hall. induction Hall as [|w ws [x Hx] _ IH]; [done|].
    cbn. rewrite Hx. cbn. by rewrite IH. }
  rewrite Hlen. split; [|done]. by destruct (feqb _ _).
Qed.

Lemma get_weights_length (words : list string) (priors : gmap string F) weights :
  get_weights words priors = Ok weights → length weights = length words.
Proof.
  unfold get_weights. intros Hw.
  destruct (mapM (dict_get priors) words) as [fs|] eqn:Hfs; [|done].
  cbn in Hw.
  assert (length fs = length words) as Hlen.
  { clear Hw. revert fs Hfs. induction words as [|w ws IH]; intros fs Hfs.
    - cbn in Hfs. unfold mret, result_ret in Hfs. by simplify_eq.
    - cbn in Hfs. destruct (dict_get priors w); [|done]. cbn in Hfs.
      destruct (mapM (dict_get priors) ws) as [fs'|]; [|done]. cbn in Hfs.
      unfold mret, result_ret in Hfs. simplify_eq. cbn. by rewrite (IH fs'). }
  destruct (feqb _ _); simplify_eq.
  - unfold np_zeros. by rewrite length_replicate.
  - by rewrite length_map.
Qed.

End WeightFacts.

Section WeightClaim.
Context {F : Type} {num : Num F}.



End WeightClaim.



(** ** Scores one guess ahead *)

Section ScoreFacts.
Context {F : Type} {num : Num F} {tr : Transcendental F} {env : Collaborators}.

Lemma get_entropies_run allowed_words possible_words (weights : list F) game_name s :
  get_entropies allowed_words possible_words weights game_name s
  = (m ← lookup_matrix (resident game_name s) allowed_words possible_words;
     Ok (map (λ row, entropy_of_distributions (pattern_distribution weights row)) m),
     loaded game_name s).
Proof.
  unfold get_entropies, get_pattern_distributions.
  rewrite bind_run, bind_get_pattern_matrix.
  destruct (lookup_matrix _ _ _) as [m|e]; [|done].
  cbn. by rewrite map_map.
Qed.

Lemma get_bucket_counts_run allowed_words possible_words game_name s :
  get_bucket_counts allowed_words possible_words game_name s
  = (m ← lookup_matrix (resident game_name s) allowed_words possible_words;
     Ok (map bucket_count m),
     loaded game_name s).
Proof.
  unfold get_bucket_counts. rewrite bind_get_pattern_matrix.
  by destruct (lookup_matrix _ _ _) as [m|e].
Qed.

Lemma zip_with_map_map {A B C D : Type} (f : B → C → D) (g : A → B) (h : A → C)
    (l : list A) :
  zip_with f (map g l) (map h l) = map (λ x, f (g x) (h x)) l.
Proof. induction l as [|x l IH]; [done|]. cbn. by rewrite IH. Qed.

Lemma one_ply_scores_run allowed_words possible_words (priors : gmap string F)
    game_name s :
  possible_words ≠ [] →
  Forall (λ w, is_Some (priors !! w)) possible_words →
  covers (resident game_name s) allowed_words possible_words →
  ∃ weights word_to_weight,
    get_weights possible_words priors = Ok weights
    ∧ dict_zip possible_words weights = Ok word_to_weight
    ∧ one_ply_scores allowed_words possible_words priors game_name s
      = (Ok (OnePly weights (entropy_of_distributions weights)
               (map (pattern_entropy (resident game_name s) possible_words weights)
                    allowed_words)
               word_to_weight
               (map (λ w, one_ply_score (entropy_of_distributions weights)
                            (dict_get_default word_to_weight w)
                            (pattern_entropy (resident game_name s) possible_words
                               weights w))
                    allowed_words)),
         loaded game_name s).
Proof.
  intros Hne Hpri Hcov.
  destruct (get_weights_run possible_words priors Hpri) as [Hw _].
  set (weights := if feqb _ _ then _ else _) in Hw.
  assert (length weights = length possible_words) as Hlen
    by (by apply (get_weights_length _ priors)).
  exists weights. eexists. split; [done|].
  unfold dict_zip. rewrite bool_decide_true by done. split; [done|].
  unfold one_ply_scores. rewrite bool_decide_false by (by destruct possible_words).
  rewrite bind_run. unfold lift at 1. rewrite Hw.
  rewrite bind_run, get_entropies_run, lookup_matrix_covered by done.
  cbn [mbind result_bind]. rewrite bind_run. unfold lift at 1, dict_zip.
  rewrite bool_decide_true by done.
  rewrite map_map, zip_with_map_map. done.
Qed.






End ScoreFacts.

(** *** The scores over the real numbers *)

Lemma R_fnat (n : nat) : fnat (F := R) n = INR n.
Proof.
  unfold fnat, flit, R_num, Q2R. cbn [Qnum Qden inject_Z].
  rewrite <- INR_IZR_INZ. change (IZR (Z.pos 1)) with 1%R. field.
Qed.

Lemma R_entropy_to_expected_score (ent : R) :
  entropy_to_expected_score (F := R) ent
  = (2 - Rpower 2 (- ent) + 3 / 23 * ent)%R.
Proof.
  unfold entropy_to_expected_score. rewrite !R_fnat.
  change (@fadd R R_num) with Rplus. change (@fsub R R_num) with Rminus.
  change (@fmul R R_num) with Rmult. change (@fdiv R R_num) with Rdiv.
  change (@fneg R R_num) with Ropp. change (@exp2 R R_transcendental) with (Rpower 2).
  change (@flit R R_num) with Q2R. unfold Q2R. cbn [Qnum Qden INR].
  field.
Qed.

















(** ** Guess selection *)

Lemma bind_Ok_inv {A B : Type} (m : M A) (k : A → M B) s b s' :
  (m ≫= k) s = (Ok b, s') → ∃ a s1, m s = (Ok a, s1) ∧ k a s1 = (Ok b, s').
Proof.
  rewrite bind_run. destruct (m s) as [[a|e] s1]; [eauto|done].
Qed.

Lemma lift_Ok_inv {A : Type} (r : result A) s a s' :
  lift r s = (Ok a, s') → r = Ok a ∧ s' = s.
Proof. unfold lift. by intros [= -> ->]. Qed.

Lemma list_get_Ok {A : Type} (l : list A) i x :
  list_get l i = Ok x → l !! i = Some x.
Proof. unfold list_get. by destruct (l !! i); intros [= ->]. Qed.

Lemma list_get_lt {A : Type} (l : list A) i :
  i < length l → ∃ x, list_get l i = Ok x.
Proof.
  intros [x Hx]%lookup_lt_is_Some_2. exists x. unfold list_get. by rewrite Hx.
Qed.

Section ArgFacts.
Context {F : Type} {num : Num F}.

Lemma arg_best_bound (better : F → F → bool) (l : list F) i best :
  best.1 < i → arg_best better l i best < i + length l.
Proof.
  revert i best. induction l as [|x l IH]; intros i best Hbest; cbn; [lia|].
  specialize (IH (S i) (if better x best.2 then (i, x) else best)).
  destruct (better x best.2); cbn in IH; lia.
Qed.

Lemma np_argmin_bound (l : list F) :
  l ≠ [] → ∃ i, np_argmin l = Ok i ∧ i < length l.
Proof.
  destruct l as [|x l]; [done|]. intros _. eexists. split; [done|].
  cbn. pose proof (arg_best_bound fltb l 1 (0, x)). cbn in *. lia.
Qed.

Lemma np_argmax_bound (l : list F) :
  l ≠ [] → ∃ i, np_argmax l = Ok i ∧ i < length l.
Proof.
  destruct l as [|x l]; [done|]. intros _. eexists. split; [done|].
  cbn. pose proof (arg_best_bound (λ a b, fltb b a) l 1 (0, x)). cbn in *. lia.
Qed.

End ArgFacts.

Section GuessFacts.
Context {F : Type} {num : Num F} {tr : Transcendental F} {env : Collaborators}.

(** Whatever computes the scores, a word that [optimal_guess] returns is
    read from [allowed_words], except on the single-answer shortcut. *)
Lemma optimal_guess_over_member scores_of allowed_words possible_words
    (priors : gmap string F) game_name look_two_ahead uniform pure s w s' :
  optimal_guess_over scores_of allowed_words possible_words priors game_name
    look_two_ahead uniform pure s = (Ok w, s') →
  w ∈ allowed_words ∨ (pure = true ∧ possible_words = [w]).
Proof.
  unfold optimal_guess_over. destruct pure.
  - destruct possible_words as [|only [|second rest]].
    2: { intros [= -> ->]. by right. }
    all: intros (ws & s1 & _ & (es & s2 & _ & (i & s3 & _ & Hget)%bind_Ok_inv)
                   %bind_Ok_inv)%bind_Ok_inv;
      apply lift_Ok_inv in Hget as [Hget%list_get_Ok _];
      left; by eapply list_elem_of_lookup_2.
  - case_bool_decide; [done|].
    intros (es & s1 & _ & Hrest)%bind_Ok_inv.
    case_bool_decide; [done|].
    apply bind_Ok_inv in Hrest as (i & s2 & _ & Hget).
    apply lift_Ok_inv in Hget as [Hget%list_get_Ok _].
    left. by eapply list_elem_of_lookup_2.
Qed.

Lemma get_score_lower_bounds_run allowed_words possible_words game_name s :
  possible_words ≠ [] →
  covers (resident game_name s) allowed_words possible_words →
  get_score_lower_bounds (F := F) allowed_words possible_words game_name s
  = (Ok (map (λ w, lower_bound (length possible_words)
                     (bool_decide (w ∈ possible_words))
                     (bucket_count (pattern_row (resident game_name s)
                                      possible_words w)))
             allowed_words),
     loaded game_name s).
Proof.
  intros Hne Hcov. unfold get_score_lower_bounds.
  rewrite bool_decide_false by (by destruct possible_words).
  rewrite bind_run, get_bucket_counts_run, lookup_matrix_covered by done.
  cbn [mbind result_bind]. by rewrite map_map, zip_with_map_map.
Qed.

(** C2 (as amended). With a non-empty list of allowed words, a word that
    [optimal_guess] returns is an allowed word under the expected-score and
    the uniform policies; under pure information maximisation it is an
    allowed word unless exactly one possible answer is left, and then it is
    that answer.  One guess ahead, the call does return a word when the
    possible answers are not empty, have priors and are covered by the
    resident grid together with the allowed words. *)
Theorem optimal_guess_allowed_or_last_answer allowed_words possible_words
    (priors : gmap string F) game_name look_two_ahead uniform pure s :
  allowed_words ≠ [] →
  (∀ w s',
     optimal_guess allowed_words possible_words priors game_name
       look_two_ahead uniform pure s = (Ok w, s') →
     if pure then w ∈ allowed_words ∨ possible_words = [w] else w ∈ allowed_words)
  ∧ (look_two_ahead = false →
     possible_words ≠ [] →
     Forall (λ w, is_Some (priors !! w)) possible_words →
     covers (resident game_name s) allowed_words possible_words →
     ∃ w s', optimal_guess allowed_words possible_words priors game_name
               look_two_ahead uniform pure s = (Ok w, s')).
Proof.
  intros Hallowed. split.
  - intros w s' Hrun. apply optimal_guess_over_member in Hrun.
    destruct pure; [tauto|]. by destruct Hrun as [?|[? _]].
  - intros -> Hne Hpri Hcov. unfold optimal_guess, optimal_guess_over.
    assert (length allowed_words ≠ 0) as Hlen by (by destruct allowed_words).
    destruct pure; [|rewrite bool_decide_false by done; destruct uniform].
    + destruct possible_words as [|only [|second rest]]; [done|by eexists _, _|].
      destruct (get_weights_run _ priors Hpri) as [Hw _].
      rewrite bind_run. unfold lift at 1. rewrite Hw.
      rewrite bind_run, get_entropies_run, lookup_matrix_covered by done.
      cbn [mbind result_bind]. rewrite bind_run. unfold lift at 1.
      edestruct (np_argmax_bound (F := F)) as (i & -> & Hi);
        [|destruct (list_get_lt allowed_words i) as [w ->]; [|by eexists _, _]].
      * rewrite map_map. by destruct allowed_words.
      * by rewrite !length_map in Hi.
    + rewrite bind_run, get_score_lower_bounds_run by done.
      rewrite bool_decide_false by (by rewrite length_map).
      rewrite bind_run. unfold lift at 1.
      edestruct (np_argmin_bound (F := F)) as (i & -> & Hi);
        [|destruct (list_get_lt allowed_words i) as [w ->]; [|by eexists _, _]].
      * by destruct allowed_words.
      * by rewrite !length_map in Hi.
    + destruct (one_ply_scores_run _ _ _ _ _ Hne Hpri Hcov)
        as (weights & wtw & _ & _ & Hrun).
      rewrite bind_run. unfold get_expected_scores, get_expected_scores_over.
      rewrite bind_run, Hrun. cbn [negb op_scores]. unfold mret at 1, M_ret.
      rewrite bool_decide_false by (by rewrite length_map).
      rewrite bind_run. unfold lift at 1.
      edestruct (np_argmin_bound (F := F)) as (i & -> & Hi);
        [|destruct (list_get_lt allowed_words i) as [w ->]; [|by eexists _, _]].
      * by destruct allowed_words.
      * by rewrite !length_map in Hi.
Qed.

End GuessFacts.

Lemma optimal_guess_allowed_or_last_answer_witness :
  ∃ w s',
    optimal_guess (F := Q) (tr := no_transcendentals) (env := toy)
      ["abc"; "abd"; "xyz"; "xyy"] ["abd"; "xyy"]
      (<["abd" := 1%Q]> (<["xyy" := 1%Q]> ∅)) "abc" false true false fresh
    = (Ok w, s')
    ∧ w ∈ ["abc"; "abd"; "xyz"; "xyy"].
Proof.
  destruct (optimal_guess_allowed_or_last_answer
              (F := Q) (tr := no_transcendentals) (env := toy)
              ["abc"; "abd"; "xyz"; "xyy"] ["abd"; "xyy"]
              (<["abd" := 1%Q]> (<["xyy" := 1%Q]> ∅)) "abc" false true false fresh)
    as [Hmember Hreturns]; [discriminate|].
  destruct Hreturns as (w & s' & Hrun).
  - reflexivity.
  - discriminate.
  - repeat constructor; vm_compute; eauto.
  - split; repeat constructor; vm_compute; eauto.
  - exists w, s'. split; [exact Hrun|exact (Hmember w s' Hrun)].
Defined.

(** C2, counterexample.  Under pure information maximisation a single
    possible answer is returned although it is not an allowed word. *)
Lemma last_answer_need_not_be_allowed :
  optimal_guess (F := R) (env := toy) ["abc"; "abd"] ["xyz"] ∅ "abc"
    false false true fresh = (Ok "xyz", fresh)
  ∧ "xyz" ∉ ["abc"; "abd"].
Proof.
  split; [reflexivity|].
  rewrite !elem_of_cons, elem_of_nil. intros [?|[?|[]]]; discriminate.
Qed.

Section NoAllowedWords.
Context {F : Type} {num : Num F} {tr : Transcendental F} {env : Collaborators}.

Lemma lookup_matrix_no_rows d words2 :
  lookup_matrix d [] words2 = Ok [] ∨ ∃ e, lookup_matrix d [] words2 = Raise e.
Proof.
  unfold lookup_matrix. cbn.
  destruct (mapM (dict_get (words_to_index d)) words2); cbn; eauto.
Qed.

(** C3 (as amended). With no allowed word, the expected-score and the
    uniform policies raise the error "No allowed words available." and
    leave the world as it is; pure information maximisation returns the
    possible answer when exactly one is left, and raises otherwise. *)
Theorem optimal_guess_no_allowed_words possible_words (priors : gmap string F)
    game_name look_two_ahead uniform pure s :
  let run := optimal_guess [] possible_words priors game_name
               look_two_ahead uniform pure s in
  match pure, possible_words with
  | false, _ => run = (Raise (ValueError "No allowed words available."), s)
  | true, [only] => run = (Ok only, s)
  | true, _ => ∃ e s', run = (Raise e, s')
  end.
Proof.
  cbn zeta. unfold optimal_guess, optimal_guess_over. destruct pure; [|done].
  destruct possible_words as [|only [|second rest]]; [|done|].
  all: rewrite bind_run; unfold lift at 1;
    destruct (get_weights _ priors) as [ws|e]; [|by eexists _, _];
    rewrite bind_run, get_entropies_run;
    match goal with
    | |- context [lookup_matrix ?d [] ?ws2] =>
        destruct (lookup_matrix_no_rows d ws2) as [->|[e ->]]
    end;
    by eexists _, _.
Qed.

End NoAllowedWords.

(** C3, counterexample.  With no allowed word and one possible answer,
    pure information maximisation returns that answer instead of raising. *)
Lemma no_allowed_words_yet_a_guess :
  optimal_guess (F := R) (env := toy) [] ["xyz"] ∅ "abc" false false true fresh
  = (Ok "xyz", fresh).
Proof. reflexivity. Qed.

(** ** The two-ply refinement *)

Section TwoPlyFacts.
Context {F : Type} {num : Num F} {tr : Transcendental F} {env : Collaborators}.

Lemma array_set_Ok (a : list F) i x a' :
  array_set a i x = Ok a' →
  length a' = length a ∧ ∀ j, j ≠ i → a' !! j = a !! j.
Proof.
  unfold array_set. case_bool_decide; [|done]. intros [= <-].
  split; [by rewrite length_insert|].
  intros j Hj. by rewrite list_lookup_insert_ne.
Qed.

(** A loop that only assigns at the indices it runs over leaves the other
    entries of the array alone. *)
Lemma for_each_assign_frame (new_score : nat → M F) (indices : list nat)
    (scores : list F) s result s' :
  for_each indices scores
    (λ scores i, x ← new_score i; lift (array_set scores i x)) s
  = (Ok result, s') →
  length result = length scores
  ∧ ∀ j, j ∉ indices → result !! j = scores !! j.
Proof.
  revert scores s. induction indices as [|i indices IH]; intros scores s; cbn.
  - unfold mret, M_ret. by intros [= -> ->].
  - intros (scores1 & s1 & (x & s2 & _ & Hset)%bind_Ok_inv & Hrest)%bind_Ok_inv.
    apply lift_Ok_inv in Hset as [[Hlen Hother]%array_set_Ok ->].
    apply IH in Hrest as [Hlen' Hframe]. split; [congruence|].
    intros j Hj. rewrite not_elem_of_cons in Hj. destruct Hj as [Hne Hj].
    rewrite Hframe by done. by apply Hother.
Qed.

(** When [get_expected_scores] does return with the two-ply lookahead
    enabled, the array has one score per one-ply score, and every candidate
    outside the shortlist (the first [n_top] indices of the argsort of the
    one-ply scores) holds its one-ply score plus one: the line
    [expected_scores += 1] runs before the loop. *)
Lemma two_ply_rest_pushed_up allowed_words possible_words (priors : gmap string F)
    game_name n_top s scores s' :
  get_expected_scores allowed_words possible_words priors game_name true n_top s
  = (Ok scores, s') →
  ∃ one_ply s1,
    get_expected_scores allowed_words possible_words priors game_name false n_top s
    = (Ok one_ply, s1)
    ∧ length scores = length one_ply
    ∧ ∀ i, i ∉ take n_top (np_argsort one_ply) →
           scores !! i = (λ x, fadd x (fnat 1)) <$> one_ply !! i.
Proof.
  unfold get_expected_scores, get_expected_scores_over.
  intros (op & s1 & Hop & Hloop)%bind_Ok_inv. cbn [negb] in Hloop.
  exists (op_scores op), s1. rewrite bind_run, Hop. split; [done|].
  apply for_each_assign_frame in Hloop as [Hlen Hframe].
  rewrite length_map in Hlen. split; [done|].
  intros i Hi. by rewrite Hframe, list_lookup_fmap.
Qed.

(** With an empty shortlist the loop does not run. *)
Lemma two_ply_no_shortlist allowed_words possible_words (priors : gmap string F)
    game_name s :
  possible_words ≠ [] →
  Forall (λ w, is_Some (priors !! w)) possible_words →
  covers (resident game_name s) allowed_words possible_words →
  ∃ one_ply,
    get_expected_scores allowed_words possible_words priors game_name false 0 s
    = (Ok one_ply, loaded game_name s)
    ∧ get_expected_scores allowed_words possible_words priors game_name true 0 s
      = (Ok (map (λ x, fadd x (fnat 1)) one_ply), loaded game_name s)
    ∧ length one_ply = length allowed_words.
Proof.
  intros Hne Hpri Hcov.
  destruct (one_ply_scores_run _ _ _ _ _ Hne Hpri Hcov)
    as (weights & wtw & _ & _ & Hrun).
  eexists. unfold get_expected_scores, get_expected_scores_over.
  rewrite !bind_run, Hrun. cbn [negb op_scores take for_each].
  split; [done|]. split; [done|]. by rewrite length_map.
Qed.

(** Inside the loop the second guess is computed for each of the 243
    buckets; for an empty bucket that call raises, and with it the loop. *)
Lemma second_guess_of_empty_bucket allowed_words (priors : gmap string F)
    game_name s :
  ∃ msg, optimal_guess_one_ahead allowed_words [] priors game_name s
         = (Raise (ValueError msg), s).
Proof.
  unfold optimal_guess_one_ahead, optimal_guess_over.
  case_bool_decide; [by eexists|].
  rewrite !bind_run. unfold one_ply_scores. cbn. by eexists.
Qed.

End TwoPlyFacts.

Section EmptyBuckets.
Context {F : Type} {num : Num F} {tr : Transcendental F} {env : Collaborators}.

Lemma bucket_append_Ok buckets index w buckets' :
  bucket_append buckets index w = Ok buckets' →
  length buckets' = length buckets
  ∧ length (concat buckets') = S (length (concat buckets)).
Proof.
  unfold bucket_append.
  destruct (buckets !! N.to_nat index) as [b|] eqn:Hb; [|done]. intros [= <-].
  split; [by rewrite length_insert|].
  rewrite <- (take_drop_middle _ _ _ Hb) at 2.
  rewrite insert_take_drop by (by eapply lookup_lt_Some).
  rewrite !concat_app, !length_app. cbn. rewrite !length_app. cbn. lia.
Qed.

Lemma fold_bucket_append_Ok (pairs : list (N * string)) buckets buckets' :
  foldl (λ acc iw, b ← acc; bucket_append b iw.1 iw.2) (Ok buckets) pairs
  = Ok buckets' →
  length buckets' = length buckets
  ∧ length (concat buckets') = length pairs + length (concat buckets).
Proof.
  revert buckets. induction pairs as [|[index w] pairs IH]; intros buckets; cbn.
  - by intros [= <-].
  - destruct (bucket_append buckets index w) as [b1|e] eqn:Hb.
    + intros [Hlen Hsum]%IH. apply bucket_append_Ok in Hb as [Hlen1 Hsum1].
      split; [congruence|lia].
    + intros Hfold. exfalso. clear -Hfold.
      induction pairs as [|iw pairs IH]; [done|]. by apply IH.
Qed.

Lemma get_word_buckets_Ok guess possible_words game_name s buckets s' :
  get_word_buckets guess possible_words game_name s = (Ok buckets, s') →
  length buckets = 3 ^ 5 ∧ length (concat buckets) = length possible_words.
Proof.
  unfold get_word_buckets. intros (m & s1 & _ & Hfold)%bind_Ok_inv.
  case_bool_decide as Hlen; [|done].
  apply lift_Ok_inv in Hfold as [Hfold _].
  apply fold_bucket_append_Ok in Hfold as [Hl Hc].
  rewrite length_replicate in Hl. split; [done|].
  rewrite Hc, length_zip_with, Hlen.
  assert (concat (replicate (3 ^ 5) ([] : list string)) = []) as ->.
  { generalize (3 ^ 5). intros n. induction n as [|n IH]; [done|]. cbn. exact IH. }
  cbn. lia.
Qed.

Lemma mapM_Ok_each {A B : Type} (f : A → M B) (l : list A) s bs s' :
  mapM f l s = (Ok bs, s') → ∀ a, a ∈ l → ∃ s1 b s2, f a s1 = (Ok b, s2).
Proof.
  revert s bs s'. induction l as [|x l IH]; intros s bs s' Hrun a Ha.
  - by apply elem_of_nil in Ha.
  - cbn in Hrun.
    apply bind_Ok_inv in Hrun as (b & s1 & Hb & (bs' & s2 & Hbs & _)%bind_Ok_inv).
    apply elem_of_cons in Ha as [->|Ha]; [by eexists _, _, _|].
    eapply IH; [exact Hbs|exact Ha].
Qed.

Lemma length_concat_nonempty {A : Type} (ls : list (list A)) :
  (∀ l, l ∈ ls → l ≠ []) → length ls ≤ length (concat ls).
Proof.
  induction ls as [|l ls IH]; intros Hne; [done|].
  cbn. rewrite length_app.
  assert (l ≠ []) as Hl by (apply Hne; left).
  assert (length ls ≤ length (concat ls)) by (apply IH; intros ? ?; apply Hne; by right).
  destruct l; [done|cbn; lia].
Qed.

(** With the lookahead enabled, the refinement of even one candidate needs
    a second guess for each of the 3^5 buckets, and the call for an empty
    bucket raises: the function returns only when the shortlist is empty or
    every bucket has a word, which takes 3^5 possible answers at least. *)
Lemma two_ply_returns_only_with_full_buckets allowed_words possible_words
    (priors : gmap string F) game_name n_top s scores s' one_ply s1 :
  get_expected_scores allowed_words possible_words priors game_name true n_top s
  = (Ok scores, s') →
  get_expected_scores allowed_words possible_words priors game_name false n_top s
  = (Ok one_ply, s1) →
  take n_top (np_argsort one_ply) = [] ∨ 3 ^ 5 ≤ length possible_words.
Proof.
  unfold get_expected_scores, get_expected_scores_over.
  intros (op & s2 & Hop & Hloop)%bind_Ok_inv. rewrite bind_run, Hop.
  cbn [negb]. unfold mret at 1, M_ret. intros [= <- <-].
  destruct (take n_top (np_argsort (op_scores op))) as [|i rest]; [by left|right].
  cbn [negb for_each] in Hloop.
  apply bind_Ok_inv in Hloop as (sc & s3 & (x & s4 & Htwo & _)%bind_Ok_inv & _).
  unfold two_ply_score in Htwo.
  apply bind_Ok_inv in Htwo as (guess & s5 & _ & Htwo).
  apply bind_Ok_inv in Htwo as (h1 & s6 & _ & Htwo).
  apply bind_Ok_inv in Htwo as (dists & s7 & _ & Htwo).
  apply bind_Ok_inv in Htwo as (dist & s8 & _ & Htwo).
  apply bind_Ok_inv in Htwo as (buckets & s9 & Hbuckets & Htwo).
  apply bind_Ok_inv in Htwo as (seconds & s10 & Hseconds & _).
  apply get_word_buckets_Ok in Hbuckets as [Hlen Hsum].
  rewrite <- Hsum, <- Hlen. apply length_concat_nonempty.
  intros bucket Hin ->.
  destruct (mapM_Ok_each _ _ _ _ _ Hseconds [] Hin) as (sa & b & sb & Hrun).
  destruct (second_guess_of_empty_bucket (get_word_list game_name) priors game_name sa)
    as [msg Hraise].
  rewrite Hraise in Hrun. discriminate Hrun.
Qed.

End EmptyBuckets.

(** ** Bucket counts *)

Lemma bucket_count_alt (row : list N) :
  bucket_count row
  = length (filter (λ p, p ∈ map N.to_nat row) (seq 0 (3 ^ 5))).
Proof.
  unfold bucket_count, bucket_sizes. generalize (seq 0 (3 ^ 5)) as ps.
  induction ps as [|p ps IH]; [done|].
  cbn [map]. rewrite !filter_cons.
  assert (0 < length (filter (λ q, N.to_nat q = p) row) ↔ p ∈ map N.to_nat row) as Hiff.
  { rewrite list_elem_of_fmap. split.
    - intros Hpos. destruct (filter _ row) as [|q qs] eqn:Hf; [cbn in Hpos; lia|].
      assert (q ∈ filter (λ q, N.to_nat q = p) row) as Hq by (rewrite Hf; left).
      apply list_elem_of_filter in Hq as [Hq Hin]. by exists q.
    - intros (q & -> & Hin).
      assert (q ∈ filter (λ q', N.to_nat q' = N.to_nat q) row) as Hq
        by (by apply list_elem_of_filter).
      destruct (filter _ row); [by apply elem_of_nil in Hq|cbn; lia]. }
  destruct (decide (0 < _)) as [Hpos|Hpos], (decide (p ∈ _)) as [Hin|Hin];
    cbn [length]; rewrite ?IH; try done; tauto.
Qed.

(** A duplicate-free list of patterns that all occur in the row gives a
    lower bound on the number of buckets. *)
Lemma bucket_count_ge (row : list N) (ps : list N) :
  NoDup ps → (∀ p, p ∈ ps → p ∈ row ∧ (p < 3 ^ 5)%N) →
  length ps ≤ bucket_count row.
Proof.
  intros Hnd Hin. rewrite bucket_count_alt.
  rewrite <- (length_map N.to_nat ps). apply submseteq_length, NoDup_submseteq.
  - apply NoDup_fmap_2; [|done]. intros x y. apply N2Nat.inj.
  - intros n (p & -> & [Hrow Hlt]%Hin)%list_elem_of_fmap.
    apply list_elem_of_filter. split; [by apply list_elem_of_fmap_2|].
    apply elem_of_seq. change (3 ^ 5) with (N.to_nat (3 ^ 5)%N). lia.
Qed.

(** A row that holds one pattern only makes one bucket at most. *)
Lemma bucket_count_le_1 (row : list N) (p : N) :
  (∀ q, q ∈ row → q = p) → bucket_count row ≤ 1.
Proof.
  intros Hall. rewrite bucket_count_alt.
  change 1 with (length [N.to_nat p]). apply submseteq_length, NoDup_submseteq.
  - apply NoDup_filter, NoDup_seq.
  - intros n [(q & -> & Hq)%list_elem_of_fmap _]%list_elem_of_filter.
    rewrite (Hall q Hq). left.
Qed.

(** ** The lower bound over the rationals *)

Lemma Q_div_le_iff (a b : Z) (n : nat) :
  0 < n →
  (inject_Z a / inject_Z (Z.of_nat n) <= inject_Z b / inject_Z (Z.of_nat n))%Q
  ↔ (a ≤ b)%Z.
Proof.
  intros Hn. unfold Qdiv.
  assert (0 < / inject_Z (Z.of_nat n))%Q as Hpos.
  { apply Qinv_lt_0_compat. change 0%Q with (inject_Z 0). rewrite <- Zlt_Qlt. lia. }
  by rewrite (Qmult_le_r _ _ _ Hpos), <- Zle_Qle.
Qed.

Lemma lower_bound_Q (n : nat) (b : bool) (k : nat) :
  0 < n →
  (lower_bound (F := Q) n b k
   == inject_Z (3 * Z.of_nat n - Z.of_nat k - Z.b2z b) / inject_Z (Z.of_nat n))%Q.
Proof.
  intros Hn. unfold lower_bound, fbool.
  assert (¬ (inject_Z (Z.of_nat n) == 0)%Q) as Hnz.
  { change 0%Q with (inject_Z 0). rewrite inject_Z_injective. lia. }
  unfold Zminus. rewrite !inject_Z_plus, !inject_Z_opp, inject_Z_mult.
  change (fnat (F := Q) n) with (inject_Z (Z.of_nat n)).
  change (fnat (F := Q) k) with (inject_Z (Z.of_nat k)).
  change (fnat (F := Q) 1) with 1%Q. change (fnat (F := Q) 2) with 2%Q.
  change (fnat (F := Q) 3) with 3%Q. change (inject_Z 3) with 3%Q.
  change (@fadd Q Q_num) with Qplus. change (@fsub Q Q_num) with Qminus.
  change (@fmul Q Q_num) with Qmult. change (@fdiv Q Q_num) with Qdiv.
  destruct b; cbn [Z.b2z].
  - change (fnat (F := Q) 1) with 1%Q. change (inject_Z 1) with 1%Q. by field.
  - change (fnat (F := Q) 0) with 0%Q. change (inject_Z 0) with 0%Q. by field.
Qed.

Lemma lower_bound_le (n : nat) (b b' : bool) (k k' : nat) :
  0 < n →
  (lower_bound (F := Q) n b k <= lower_bound (F := Q) n b' k')%Q →
  k' + Nat.b2n b' ≤ k + Nat.b2n b.
Proof.
  intros Hn. rewrite !lower_bound_Q by done. rewrite Q_div_le_iff by done.
  destruct b, b'; cbn; lia.
Qed.

(** [np.argmin] over the rationals: no entry is smaller than the one at
    the index it returns. *)
Lemma arg_best_min (l pre : list Q) (i : nat) (best : nat * Q) :
  length pre = i → pre !! best.1 = Some best.2 →
  (∀ y, y ∈ pre → (best.2 <= y)%Q) →
  ∃ x, (pre ++ l) !! arg_best (F := Q) fltb l i best = Some x
       ∧ ∀ y, y ∈ pre ++ l → (x <= y)%Q.
Proof.
  revert pre i best. induction l as [|z l IH]; intros pre i best Hlen Hbest Hmin.
  - cbn. rewrite app_nil_r. eauto.
  - cbn [arg_best].
    replace (pre ++ z :: l) with ((pre ++ [z]) ++ l) by (by rewrite <- app_assoc).
    apply IH.
    + rewrite length_app. cbn. lia.
    + destruct (fltb z best.2) eqn:Hlt; cbn [fst snd].
      * rewrite lookup_app_r by lia. by rewrite Hlen, Nat.sub_diag.
      * rewrite lookup_app_l; [done|]. by eapply lookup_lt_Some.
    + intros y [Hy|Hy%list_elem_of_singleton]%elem_of_app.
      * destruct (fltb z best.2) eqn:Hlt; cbn [fst snd]; [|by apply Hmin].
        unfold fltb, Q_num, Q_ltb in Hlt. apply negb_true_iff in Hlt.
        assert (¬ (best.2 <= z)%Q) as Hnle
          by (rewrite <- Qle_bool_iff; by rewrite Hlt).
        apply Qnot_le_lt in Hnle. specialize (Hmin y Hy).
        apply Qlt_le_weak. by eapply Qlt_le_trans.
      * subst y. destruct (fltb z best.2) eqn:Hlt; cbn [fst snd]; [apply Qle_refl|].
        unfold fltb, Q_num, Q_ltb in Hlt. apply negb_false_iff in Hlt.
        by apply Qle_bool_iff.
Qed.

Lemma np_argmin_min (l : list Q) (i : nat) :
  np_argmin l = Ok i →
  ∃ x, l !! i = Some x ∧ ∀ y, y ∈ l → (x <= y)%Q.
Proof.
  destruct l as [|z l]; [done|]. intros [= <-].
  apply (arg_best_min l [z] 1 (0, z)); [done|done|].
  intros y ->%list_elem_of_singleton. apply Qle_refl.
Qed.

(** ** The brute-force verifier against the lower bound *)

Lemma genuine_grid_pattern d words g a :
  genuine_grid d words → g ∈ words → a ∈ words →
  ∃ p, cached_pattern d g a = Some p ∧ (p < 3 ^ 5)%N
       ∧ (cached_pattern d g g = Some p → a = g).
Proof.
  intros Hgrid Hg Ha. unfold genuine_grid in Hgrid. rewrite Forall_forall in Hgrid.
  destruct (Hgrid g Hg) as [_ Hrow]. rewrite Forall_forall in Hrow. by apply Hrow.
Qed.

Lemma genuine_grid_covers d words words1 words2 :
  genuine_grid d words → words1 ⊆ words → words2 ⊆ words →
  covers d words1 words2.
Proof.
  intros Hgrid H1 H2. split.
  - apply Forall_forall. intros w [Hw|Hw]%elem_of_app.
    + unfold genuine_grid in Hgrid. rewrite Forall_forall in Hgrid.
      by destruct (Hgrid w (H1 _ Hw)).
    + unfold genuine_grid in Hgrid. rewrite Forall_forall in Hgrid.
      by destruct (Hgrid w (H2 _ Hw)).
  - apply Forall_forall. intros g Hg. apply Forall_forall. intros a Ha.
    destruct (genuine_grid_pattern d words g a) as (p & -> & _); eauto.
Qed.

Section BuiltGrid.
Context {env : Collaborators}.

Lemma dict_zip_count_lookup (words : list string) (w : string) (i : nat) :
  NoDup words → words !! i = Some w → dict_zip_count words !! w = Some i.
Proof.
  unfold dict_zip_count. revert i.
  induction words as [|x words IH] using rev_ind; intros i Hnd Hi; [done|].
  apply NoDup_app in Hnd as (Hnd & Hnotin & _).
  rewrite length_app. cbn [length]. rewrite Nat.add_1_r, seq_S.
  rewrite zip_with_app by (by rewrite length_seq).
  rewrite foldl_app. cbn.
  destruct (decide (i < length words)) as [Hlt|Hge].
  - rewrite lookup_app_l in Hi by done.
    rewrite lookup_insert_ne.
    + by apply IH.
    + intros ->. apply (Hnotin w); [by eapply list_elem_of_lookup_2|left].
  - assert (i = length words) as ->.
    { apply lookup_lt_Some in Hi. rewrite length_app in Hi. cbn in Hi. lia. }
    rewrite list_lookup_middle in Hi by done. injection Hi as ->.
    by rewrite lookup_insert_eq.
Qed.

(** The grid the builder makes for a duplicate-free word list is genuine
    when the encoder stays below 3^5 and gives a word's pattern against
    itself to that word only. *)
Lemma built_grid_genuine (words : list string) :
  NoDup words →
  (∀ g a, g ∈ words → a ∈ words →
          (encode g a < 3 ^ 5)%N ∧ (encode g g = encode g a → a = g)) →
  genuine_grid
    (GridData (generate_full_pattern_matrix_in_blocks words) (dict_zip_count words))
    words.
Proof.
  intros Hnd Henc.
  assert (∀ g a, g ∈ words → a ∈ words →
            cached_pattern
              (GridData (generate_full_pattern_matrix_in_blocks words)
                        (dict_zip_count words)) g a
            = Some (encode g a)) as Hpat.
  { intros g a [i Hi]%list_elem_of_lookup_1 [j Hj]%list_elem_of_lookup_1.
    unfold cached_pattern. cbn [words_to_index grid].
    rewrite (dict_zip_count_lookup words g i Hnd Hi),
            (dict_zip_count_lookup words a j Hnd Hj).
    cbn [mbind option_bind].
    unfold generate_full_pattern_matrix_in_blocks, generate_pattern_matrix.
    rewrite list_lookup_fmap, Hi. cbn [fmap option_fmap option_map mbind option_bind].
    by rewrite list_lookup_fmap, Hj. }
  apply Forall_forall. intros g Hg. split.
  - destruct (list_elem_of_lookup_1 _ _ Hg) as [i Hi].
    cbn [words_to_index]. rewrite (dict_zip_count_lookup words g i Hnd Hi). eauto.
  - apply Forall_forall. intros a Ha. exists (encode g a).
    destruct (Henc g a Hg Ha) as [Hlt Hexact].
    split; [by apply Hpat|]. split; [done|].
    rewrite (Hpat g g Hg Hg). intros [= Heq]. by apply Hexact.
Qed.

End BuiltGrid.

Section Verifier.
Context {tr : Transcendental Q} {env : Collaborators}.
Variables (s : world) (d : grid_data) (all_words : list string).
Variables (priors : gmap string Q) (game_name : string).
Hypothesis cache_populated : PATTERN_GRID_DATA s = Some d.
Hypothesis grid_genuine : genuine_grid d all_words.

Local Abbreviation lb P w :=
  (lower_bound (F := Q) (length P) (bool_decide (w%string ∈ P%list))
     (bucket_count (pattern_row d P w))).
Local Abbreviation next_guess P :=
  (optimal_guess (F := Q) all_words P priors game_name false true false s).
Local Abbreviation bucket g p P :=
  (filter (λ w, cached_pattern d g w = Some p) P).

Lemma populated_resident : resident game_name s = d.
Proof. unfold resident. by rewrite cache_populated. Qed.

Lemma populated_loaded : loaded game_name s = s.
Proof. unfold loaded. by rewrite cache_populated. Qed.

Lemma elem_of_pattern_row P g q :
  q ∈ pattern_row d P g ↔ ∃ a, a ∈ P ∧ cached_pattern d g a = Some q.
Proof. unfold pattern_row. apply list_elem_of_omap. Qed.

Lemma next_guess_run P :
  P ≠ [] → P ⊆ all_words →
  ∃ g, next_guess P = (Ok g, s) ∧ g ∈ all_words
       ∧ ∀ w, w ∈ all_words → (lb P g <= lb P w)%Q.
Proof.
  intros Hne Hsub.
  assert (all_words ≠ []) as Hall.
  { destruct P as [|a P]; [done|]. intros Heq.
    specialize (Hsub a (list_elem_of_here _ _)). rewrite Heq in Hsub.
    by apply elem_of_nil in Hsub. }
  unfold optimal_guess, optimal_guess_over.
  rewrite bool_decide_false by (by destruct all_words).
  rewrite bind_run, get_score_lower_bounds_run;
    rewrite ?populated_resident, ?populated_loaded;
    [|done|by apply (genuine_grid_covers d all_words)].
  rewrite bool_decide_false by (rewrite length_map; by destruct all_words).
  rewrite bind_run. unfold lift at 1.
  edestruct (np_argmin_bound (F := Q)) as (i & Hi & Hlt);
    [|rewrite Hi]; [by destruct all_words|].
  rewrite length_map in Hlt.
  destruct (list_get_lt all_words i Hlt) as [g Hg]. rewrite Hg.
  exists g. split; [done|]. apply list_get_Ok in Hg.
  split; [by eapply list_elem_of_lookup_2|].
  apply np_argmin_min in Hi as (x & Hx & Hmin).
  rewrite list_lookup_fmap, Hg in Hx.
  change (Some (lb P g) = Some x) in Hx.
  assert (x = lb P g) as -> by congruence.
  intros w Hw. apply Hmin.
  by apply (list_elem_of_fmap_2 (λ w : string, lb P w) all_words w).
Qed.

Lemma get_possible_words_bucket g p P :
  g ∈ all_words → P ⊆ all_words →
  get_possible_words g p P game_name s = (Ok (bucket g p P), s).
Proof.
  intros Hg Hsub.
  rewrite get_possible_words_run; rewrite ?populated_resident, ?populated_loaded.
  - done.
  - unfold genuine_grid in grid_genuine. rewrite Forall_forall in grid_genuine.
    by destruct (grid_genuine g Hg).
  - apply Forall_forall. intros a Ha.
    destruct (genuine_grid_pattern d all_words g a) as (q & -> & _); eauto.
Qed.

Lemma get_pattern_populated g a :
  g ∈ all_words → a ∈ all_words →
  ∃ p, get_pattern g a game_name s = (Ok p, s) ∧ cached_pattern d g a = Some p.
Proof.
  intros Hg Ha.
  destruct (genuine_grid_pattern d all_words g a) as (p & Hp & _); [done..|].
  exists p. split; [|done]. rewrite get_pattern_run, cache_populated.
  unfold cached_pattern in Hp.
  destruct (words_to_index d !! g) as [i|]; [|done].
  destruct (words_to_index d !! a) as [j|]; [|done].
  cbn in Hp. unfold grid_at. by rewrite Hp.
Qed.

(** The guess of the uniform policy splits the possibilities, unless it is
    the answer itself. *)
Lemma next_guess_progress P a g p :
  NoDup P → P ⊆ all_words → a ∈ P →
  next_guess P = (Ok g, s) → g ≠ a → cached_pattern d g a = Some p →
  length (bucket g p P) < length P.
Proof.
  intros Hnd Hsub Ha Hguess Hne Hp.
  destruct (next_guess_run P) as (g' & Hrun & Hg & Hmin);
    [by intros ->; apply elem_of_nil in Ha|done|].
  rewrite Hguess in Hrun. injection Hrun as <-.
  destruct (decide (Forall (λ w, cached_pattern d g w = Some p) P)) as [Hall|Hex].
  2: { apply not_Forall_Exists in Hex; [|apply _].
       apply Exists_exists in Hex as (w & Hw & Hnp).
       by eapply length_filter_lt. }
  exfalso. rewrite Forall_forall in Hall.
  assert (0 < length P) as Hpos by (destruct P; [by apply elem_of_nil in Ha|cbn; lia]).
  specialize (Hmin a (Hsub a Ha)). apply lower_bound_le in Hmin; [|done].
  rewrite (bool_decide_true (a ∈ P)) in Hmin by done. cbn [Nat.b2n] in Hmin.
  assert (bucket_count (pattern_row d P g) ≤ 1) as Hone.
  { apply (bucket_count_le_1 _ p). intros q (w & Hw & Hq)%elem_of_pattern_row.
    rewrite (Hall w Hw) in Hq. by injection Hq. }
  destruct (genuine_grid_pattern d all_words a a grid_genuine)
    as (pa & Hpa & Hlta & _); [by apply Hsub..|].
  destruct (decide (g ∈ P)) as [HgP|HgP].
  - destruct (genuine_grid_pattern d all_words a g grid_genuine)
      as (pg & Hpg & Hltg & Hexact); [by apply Hsub|done|].
    assert (2 ≤ bucket_count (pattern_row d P a)) as Htwo.
    { apply (bucket_count_ge _ [pa; pg]).
      - apply NoDup_cons. split; [|apply NoDup_singleton].
        intros ->%list_elem_of_singleton. by apply Hne, Hexact.
      - intros q [->|[->|[]%elem_of_nil]%elem_of_cons]%elem_of_cons.
        + split; [|done]. apply elem_of_pattern_row. eauto.
        + split; [|done]. apply elem_of_pattern_row. eauto. }
    destruct (bool_decide (g ∈ P)); cbn [Nat.b2n] in Hmin; lia.
  - assert (1 ≤ bucket_count (pattern_row d P a)) as Hge.
    { apply (bucket_count_ge _ [pa]); [apply NoDup_singleton|].
      intros q ->%list_elem_of_singleton. split; [|done].
      apply elem_of_pattern_row. eauto. }
    rewrite (bool_decide_false (g ∈ P)) in Hmin by done. cbn [Nat.b2n] in Hmin. lia.
Qed.


Lemma mapM_unchanged {A B : Type} (f : A → M B) (Q : A → B → Prop) (l : list A) :
  (∀ a, a ∈ l → ∃ b, f a s = (Ok b, s) ∧ Q a b) →
  ∃ bs, mapM f l s = (Ok bs, s) ∧ Forall2 Q l bs.
Proof.
  induction l as [|a l IH]; intros Hall.
  - exists []. split; [done|constructor].
  - destruct (Hall a (list_elem_of_here _ _)) as (b & Hb & HQ).
    destruct IH as (bs & Hbs & HQs).
    { intros a' Ha'. apply Hall. by right. }
    exists (b :: bs). split; [|by constructor].
    cbn. rewrite bind_run, Hb, bind_run, Hbs. done.
Qed.



End Verifier.

(** Checks [genuine_grid] on a concrete grid and word list by evaluation. *)
Ltac check_genuine :=
  repeat first
    [ apply Forall_nil_2
    | apply Forall_cons_2
    | split
    | match goal with
      | |- is_Some _ => vm_compute; eauto
      | |- ∃ p, _ => eexists; split; [vm_compute; reflexivity|]; split;
                       [reflexivity|];
                       let E := fresh in
                       intros E; vm_compute in E;
                       first [discriminate E | reflexivity]
      end ].


(** * Further properties *)

(** ** The pattern display *)

Lemma int_list_loop_spec (n : nat) (curr : N) :
  length (int_list_loop n curr) = n
  ∧ Forall (λ d, (d < 3)%N) (int_list_loop n curr)
  ∧ digits_value (int_list_loop n curr) = (curr mod 3 ^ N.of_nat n)%N.
Proof.
  revert curr. induction n as [|n IH]; intros curr.
  - cbn. split; [done|]. split; [constructor|]. by rewrite N.mod_1_r.
  - destruct (IH (curr / 3)%N) as (Hlen & Hlt & Hval).
    cbn [int_list_loop length]. split; [by rewrite Hlen|]. split.
    + constructor; [|done]. apply N.mod_upper_bound. lia.
    + unfold digits_value in *. cbn [foldr]. rewrite Hval.
      rewrite Nat2N.inj_succ, N.pow_succ_r'.
      rewrite (N.Div0.mod_mul_r curr 3 (3 ^ N.of_nat n)). done.
Qed.

Lemma digits_value_inj (ds es : list N) :
  length ds = length es →
  Forall (λ d, (d < 3)%N) ds → Forall (λ d, (d < 3)%N) es →
  digits_value ds = digits_value es → ds = es.
Proof.
  revert es. induction ds as [|d ds IH]; intros [|e es] Hlen Hds Hes Hval;
    try done.
  apply Forall_cons in Hds as [Hd Hds]. apply Forall_cons in Hes as [He Hes].
  unfold digits_value in *. cbn [foldr] in Hval. cbn in Hlen.
  assert (d = e) as -> by lia.
  f_equal. apply IH; [lia|done|done|unfold digits_value; lia].
Qed.

Lemma pattern_to_int_list_mod (pat : N) :
  pattern_to_int_list (pat mod 3 ^ 5) = pattern_to_int_list pat.
Proof.
  destruct (int_list_loop_spec 5 pat) as (Hlen & Hlt & Hval).
  destruct (int_list_loop_spec 5 (pat mod 3 ^ 5)) as (Hlen' & Hlt' & Hval').
  unfold pattern_to_int_list.
  apply digits_value_inj; [by rewrite Hlen, Hlen'|done|done|].
  rewrite Hval, Hval'.
  apply N.Div0.mod_mod.
Qed.

(** X1. [pattern_to_int_list] returns five digits below three, the base-3
    digits of the pattern, lowest first, up to the fifth: their value is the
    pattern modulo 3^5, and two patterns have the same digits exactly when
    they agree modulo 3^5. *)
Theorem pattern_to_int_list_digits (p q : N) :
  length (pattern_to_int_list p) = 5
  ∧ Forall (λ d, (d < 3)%N) (pattern_to_int_list p)
  ∧ digits_value (pattern_to_int_list p) = (p mod 3 ^ 5)%N
  ∧ (pattern_to_int_list p = pattern_to_int_list q ↔ (p mod 3 ^ 5 = q mod 3 ^ 5)%N).
Proof.
  destruct (int_list_loop_spec 5 p) as (Hlen & Hlt & Hval).
  destruct (int_list_loop_spec 5 q) as (_ & _ & Hvalq).
  change (N.of_nat 5) with 5%N in Hval, Hvalq.
  split; [done|]. split; [done|]. split; [done|]. split.
  - intros Heq. unfold pattern_to_int_list in Heq.
    by rewrite <- Hval, <- Hvalq, Heq.
  - intros Heq. by rewrite <- (pattern_to_int_list_mod p), Heq, pattern_to_int_list_mod.
Qed.

Lemma glyph_of_digit (d : N) : (d < 3)%N → ∃ glyph, glyph_of d = Ok glyph.
Proof.
  intros Hd.
  assert (d = 0 ∨ d = 1 ∨ d = 2)%N as Hcases by lia.
  destruct Hcases as [-> | [-> | ->]]; by eexists.
Qed.

Lemma mapM_result_total {A B : Type} (f : A → result B) (l : list A) :
  Forall (λ x, ∃ y, f x = Ok y) l → ∃ ys, mapM f l = Ok ys ∧ length ys = length l.
Proof.
  induction 1 as [|x l [y Hy] _ (ys & Hys & Hlen)].
  - by exists [].
  - exists (y :: ys). cbn. rewrite Hy. cbn. rewrite Hys. cbn.
    split; [done|]. by rewrite Hlen.
Qed.

Lemma pattern_to_string_total (pat : N) : ∃ s, pattern_to_string pat = Ok s.
Proof.
  unfold pattern_to_string.
  destruct (mapM_result_total glyph_of (pattern_to_int_list pat)) as (parts & -> & _).
  - destruct (int_list_loop_spec 5 pat) as (_ & Hlt & _).
    eapply Forall_impl; [exact Hlt|]. intros d Hd. by apply glyph_of_digit.
  - by eexists.
Qed.

Lemma NoDup_fmap_lookup_inj {A B : Type} (f : A → B) (l : list A) i j x y :
  NoDup (f <$> l) → l !! i = Some x → l !! j = Some y → f x = f y → i = j.
Proof.
  intros Hnd Hi Hj Heq.
  apply (proj1 (NoDup_alt (f <$> l)) Hnd i j (f x)).
  - by rewrite list_lookup_fmap, Hi.
  - by rewrite list_lookup_fmap, Hj, Heq.
Qed.

Lemma pattern_strings_NoDup :
  NoDup (pattern_to_string <$> (N.of_nat <$> seq 0 (3 ^ 5))).
Proof. apply (bool_decide_unpack _). by vm_compute. Qed.

Lemma pattern_to_string_mod (pat : N) :
  pattern_to_string (pat mod 3 ^ 5) = pattern_to_string pat.
Proof. unfold pattern_to_string. by rewrite pattern_to_int_list_mod. Qed.

(** X2. The display never fails: every digit [pattern_to_int_list] gives has
    a glyph, so [pattern_to_string] returns a string for every pattern and
    [patterns_to_string] for every list of patterns; and two patterns are
    displayed alike exactly when they agree modulo 3^5 (different patterns
    below 3^5 are displayed differently). *)
Theorem pattern_to_string_total_injective (p q : N) (patterns : list N) :
  (∃ s, pattern_to_string p = Ok s)
  ∧ (∃ s, patterns_to_string patterns = Ok s)
  ∧ (pattern_to_string p = pattern_to_string q ↔ (p mod 3 ^ 5 = q mod 3 ^ 5)%N).
Proof.
  split; [apply pattern_to_string_total|]. split; [|split].
  - unfold patterns_to_string.
    destruct (mapM_result_total pattern_to_string patterns) as (ls & -> & _).
    + apply Forall_forall. intros r _. apply pattern_to_string_total.
    + by eexists.
  - intros Heq.
    rewrite <- (pattern_to_string_mod p), <- (pattern_to_string_mod q) in Heq.
    assert (∀ r, (N.of_nat <$> seq 0 (3 ^ 5)) !! N.to_nat (r mod 3 ^ 5)
                 = Some (r mod 3 ^ 5)%N) as Hseq.
    { intros r. rewrite list_lookup_fmap, lookup_seq_lt.
      - cbn. by rewrite N2Nat.id.
      - pose proof (N.mod_upper_bound r (3 ^ 5)).
        change (3 ^ 5) with (N.to_nat (3 ^ 5)%N). lia. }
    apply N2Nat.inj.
    exact (NoDup_fmap_lookup_inj _ _ _ _ _ _ pattern_strings_NoDup
             (Hseq p) (Hseq q) Heq).
  - intros Heq. by rewrite <- (pattern_to_string_mod p), Heq, pattern_to_string_mod.
Qed.

(** ** Batched lookups and the saved grid *)

Section LookupFacts.
Context {env : Collaborators}.

Lemma omap_covered {A B : Type} (f : A → option B) (l : list A) :
  Forall (λ a, is_Some (f a)) l →
  length (omap f l) = length l
  ∧ ∀ b w, l !! b = Some w → omap f l !! b = f w.
Proof.
  induction 1 as [|a l [y Hy] _ [IHlen IHat]]; [done|].
  cbn. rewrite Hy. cbn. split; [by rewrite IHlen|].
  intros [|b] w Hw; cbn in Hw |- *; [by simplify_eq|by apply IHat].
Qed.

(** X3. On a batch the resident grid covers, [get_pattern_matrix] returns
    the sub-matrix in the order of its arguments: one row per word of
    [words1], one entry per word of [words2], and the entry at [(a, b)] is
    the pattern the grid stores for [words1[a]] against [words2[b]]. *)
Theorem get_pattern_matrix_submatrix words1 words2 game_name s :
  covers (resident game_name s) words1 words2 →
  ∃ m,
    get_pattern_matrix words1 words2 game_name s = (Ok m, loaded game_name s)
    ∧ length m = length words1
    ∧ Forall (λ row, length row = length words2) m
    ∧ ∀ a b g w, words1 !! a = Some g → words2 !! b = Some w →
        ∃ p, cached_pattern (resident game_name s) g w = Some p
             ∧ m !! a ≫= (.!! b) = Some p.
Proof.
  intros Hcov. exists (map (pattern_row (resident game_name s) words2) words1).
  rewrite get_pattern_matrix_run, (lookup_matrix_covered _ _ _ Hcov).
  destruct Hcov as [_ Hpat]. rewrite Forall_forall in Hpat.
  split; [done|]. split; [by rewrite length_map|]. split.
  - apply Forall_forall. intros row (g & -> & Hg)%list_elem_of_fmap.
    unfold pattern_row. by apply omap_covered, Hpat.
  - intros a b g w Ha Hb.
    assert (g ∈ words1) as Hg by (by eapply list_elem_of_lookup_2).
    destruct (omap_covered (cached_pattern (resident game_name s) g) words2
                (Hpat g Hg)) as [_ Hat].
    pose proof (Hpat g Hg) as Hrow. rewrite Forall_forall in Hrow.
    destruct (Hrow w) as [p Hp]; [by eapply list_elem_of_lookup_2|].
    exists p. split; [done|].
    rewrite list_lookup_fmap, Ha. cbn. unfold pattern_row.
    by rewrite (Hat b w Hb).
Qed.

Lemma dict_get_None {V : Type} (d : gmap string V) (w : string) :
  d !! w = None → dict_get d w = Raise (KeyError w).
Proof. unfold dict_get. by intros ->. Qed.

Lemma mapM_result_cons {A B : Type} (f : A → result B) (x : A) (l : list A) :
  mapM f (x :: l) = (y ← f x; k ← mapM f l; Ok (y :: k)).
Proof. reflexivity. Qed.

Lemma mapM_dict_get_missing {V : Type} (d : gmap string V) (pre post : list string)
    (w : string) :
  Forall (λ x, is_Some (d !! x)) pre → d !! w = None →
  mapM (dict_get d) (pre ++ w :: post) = Raise (KeyError w).
Proof.
  intros Hpre Hw. induction Hpre as [|x pre [v Hv] _ IH].
  - cbn [app]. by rewrite mapM_result_cons, (dict_get_None _ _ Hw).
  - cbn [app]. by rewrite mapM_result_cons, (dict_get_Some _ _ _ Hv), IH.
Qed.

(** X4. A word that is not in the resident index makes [get_pattern_matrix]
    raise [KeyError] with that word: the first such word of [words1], or,
    when all of [words1] is indexed, the first such word of [words2].  The
    grid is loaded all the same. *)
Theorem get_pattern_matrix_unknown_word pre w post others game_name s :
  Forall (λ x, is_Some (words_to_index (resident game_name s) !! x)) pre →
  words_to_index (resident game_name s) !! w = None →
  Forall (λ x, is_Some (words_to_index (resident game_name s) !! x)) others →
  get_pattern_matrix (pre ++ w :: post) others game_name s
  = (Raise (KeyError w), loaded game_name s)
  ∧ get_pattern_matrix others (pre ++ w :: post) game_name s
    = (Raise (KeyError w), loaded game_name s)
  ∧ ∀ unindexed, get_pattern_matrix (pre ++ w :: post) unindexed game_name s
                 = (Raise (KeyError w), loaded game_name s).
Proof.
  intros Hpre Hw Hothers. rewrite !get_pattern_matrix_run. unfold lookup_matrix.
  rewrite (mapM_dict_get_missing _ pre post w Hpre Hw).
  split; [done|]. split.
  - by rewrite (mapM_dict_get_indexed _ others Hothers).
  - intros unindexed. rewrite get_pattern_matrix_run. unfold lookup_matrix.
    by rewrite (mapM_dict_get_missing _ pre post w Hpre Hw).
Qed.

(** X5. The grid is built once.  A first query in a process with an empty
    cache leaves the grid it answers from in the file of the game and
    touches no other file; a later process that starts with an empty cache
    and that disk answers every query from the same grid and index, and
    ends in the same world. *)
Theorem saved_grid_is_loaded_again words1 words2 game_name dk again1 again2 fname :
  let s1 := (get_pattern_matrix words1 words2 game_name (World None dk)).2 in
  disk s1 !! fname
  = (if decide (fname = get_pattern_matrix_fname game_name)
     then Some (grid (resident game_name (World None dk)))
     else dk !! fname)
  ∧ get_pattern_matrix again1 again2 game_name (World None (disk s1))
    = (lookup_matrix (resident game_name (World None dk)) again1 again2, s1).
Proof.
  cbn zeta. rewrite !get_pattern_matrix_run. cbn [snd].
  unfold loaded, resident, entry_for. cbn [PATTERN_GRID_DATA disk default grid].
  split.
  - destruct (decide (fname = _)) as [->|Hne].
    + by rewrite lookup_insert_eq.
    + by rewrite lookup_insert_ne.
  - rewrite lookup_insert_eq. cbn [default]. by rewrite insert_insert_eq.
Qed.

End LookupFacts.

Lemma get_pattern_matrix_submatrix_witness :
  ∃ m,
    get_pattern_matrix (env := toy) ["xyz"; "abc"] ["abd"; "abc"; "xyy"] "abc" fresh
    = (Ok m, after_abc)
    ∧ m = [[0; 0; 8]; [8; 26; 0]]%N.
Proof.
  destruct (get_pattern_matrix_submatrix (env := toy)
              ["xyz"; "abc"] ["abd"; "abc"; "xyy"] "abc" fresh) as (m & Hrun & _).
  - split; repeat constructor; vm_compute; eauto.
  - exists m. split; [exact Hrun|].
    assert (get_pattern_matrix (env := toy) ["xyz"; "abc"] ["abd"; "abc"; "xyy"]
              "abc" fresh
            = (Ok [[0; 0; 8]; [8; 26; 0]]%N, after_abc)) as Hval by (by vm_compute).
    rewrite Hval in Hrun. by injection Hrun.
Defined.

Lemma get_pattern_matrix_unknown_word_witness :
  get_pattern_matrix (env := toy) ["abc"; "zzz"; "qqq"] ["abd"] "abc" fresh
  = (Raise (KeyError "zzz"), after_abc)
  ∧ get_pattern_matrix (env := toy) ["abd"] ["abc"; "zzz"; "qqq"] "abc" fresh
    = (Raise (KeyError "zzz"), after_abc).
Proof.
  destruct (get_pattern_matrix_unknown_word (env := toy)
              ["abc"] "zzz" ["qqq"] ["abd"] "abc" fresh) as (H1 & H2 & _).
  - repeat constructor; vm_compute; eauto.
  - by vm_compute.
  - repeat constructor; vm_compute; eauto.
  - split; [exact H1|exact H2].
Defined.

(** ** Buckets and filtering *)

Section BucketFacts.
Context {env : Collaborators}.

Lemma bucket_append_lookup buckets (p : N) w b :
  buckets !! N.to_nat p = Some b →
  bucket_append buckets p w = Ok (<[N.to_nat p := b ++ [w]]> buckets).
Proof. unfold bucket_append. by intros ->. Qed.

(** The loop of [get_word_buckets] over words whose patterns are in range:
    every bucket receives, behind what it holds, the words of its pattern in
    the order of the list. *)
Lemma fold_bucket_append_filter (f : string → option N) (ws : list string)
    (acc : list (list string)) :
  Forall (λ w, ∃ p, f w = Some p ∧ N.to_nat p < length acc) ws →
  ∃ buckets,
    foldl (λ acc iw, b ← acc; bucket_append b iw.1 iw.2) (Ok acc)
          (zip (omap f ws) ws) = Ok buckets
    ∧ length buckets = length acc
    ∧ ∀ i b, acc !! i = Some b →
        buckets !! i = Some (b ++ filter (λ w, f w = Some (N.of_nat i)) ws).
Proof.
  intros Hall. revert acc Hall.
  induction ws as [|w ws IH]; intros acc Hall.
  - exists acc. split; [done|]. split; [done|].
    intros i b Hb. by rewrite app_nil_r.
  - apply Forall_cons in Hall as [(p & Hp & Hlt) Hall].
    destruct (lookup_lt_is_Some_2 acc (N.to_nat p) Hlt) as [bp Hbp].
    cbn [omap list_omap]. rewrite Hp. cbn [zip_with foldl fst snd].
    cbn [mbind result_bind]. rewrite (bucket_append_lookup _ _ _ _ Hbp).
    destruct (IH (<[N.to_nat p := bp ++ [w]]> acc)) as (buckets & Hrun & Hlen & Hat).
    { eapply Forall_impl; [exact Hall|]. intros x (q & Hq & Hq').
      exists q. by rewrite length_insert. }
    exists buckets. split; [exact Hrun|].
    split; [by rewrite Hlen, length_insert|].
    intros i b Hb. rewrite filter_cons.
    destruct (decide (i = N.to_nat p)) as [->|Hne].
    + rewrite Hbp in Hb. injection Hb as <-.
      rewrite (Hat (N.to_nat p) (bp ++ [w]));
        [|by rewrite list_lookup_insert_eq by done].
      rewrite N2Nat.id, Hp. rewrite decide_True by done.
      by rewrite <- app_assoc.
    + rewrite (Hat i b) by (by rewrite list_lookup_insert_ne).
      rewrite decide_False; [done|].
      rewrite Hp. intros [= ->]. by rewrite Nat2N.id in Hne.
Qed.

Lemma lookup_row_covered d guess words :
  is_Some (words_to_index d !! guess) →
  Forall (λ w, is_Some (cached_pattern d guess w)) words →
  lookup_matrix d [guess] words = Ok [pattern_row d words guess].
Proof.
  intros [i Hi] Hall.
  rewrite (lookup_matrix_covered d [guess] words); [done|]. split.
  - apply Forall_cons. split; [eauto|].
    eapply Forall_impl; [exact Hall|]. intros w [p Hp].
    unfold cached_pattern in Hp. rewrite Hi in Hp. cbn in Hp.
    destruct (words_to_index d !! w); [eauto|done].
  - by apply Forall_cons.
Qed.

(** X6. On possible words whose patterns against the guess are in the
    resident grid and below 3^5, [get_word_buckets] returns 3^5 buckets, and
    the bucket at index [p] is the list [get_possible_words] returns for the
    pattern [p]: the possible words with that pattern, in their order. *)
Theorem get_word_buckets_are_filters guess possible_words game_name s :
  is_Some (words_to_index (resident game_name s) !! guess) →
  Forall (λ w, ∃ p, cached_pattern (resident game_name s) guess w = Some p
                    ∧ (p < 3 ^ 5)%N) possible_words →
  ∃ buckets,
    get_word_buckets guess possible_words game_name s
    = (Ok buckets, loaded game_name s)
    ∧ length buckets = 3 ^ 5
    ∧ ∀ p, (p < 3 ^ 5)%N →
        ∃ kept,
          buckets !! N.to_nat p = Some kept
          ∧ get_possible_words guess p possible_words game_name s
            = (Ok kept, loaded game_name s)
          ∧ kept = filter (λ w, cached_pattern (resident game_name s) guess w
                                = Some p) possible_words.
Proof.
  intros Hg Hall.
  assert (Forall (λ w, is_Some (cached_pattern (resident game_name s) guess w))
            possible_words) as Hsome.
  { eapply Forall_impl; [exact Hall|]. intros w (p & -> & _). eauto. }
  destruct (fold_bucket_append_filter
              (cached_pattern (resident game_name s) guess) possible_words
              (replicate (3 ^ 5) [])) as (buckets & Hrun & Hlen & Hat).
  { eapply Forall_impl; [exact Hall|]. intros w (p & Hp & Hlt).
    exists p. split; [done|]. rewrite length_replicate.
    change (3 ^ 5) with (N.to_nat (3 ^ 5)%N). lia. }
  rewrite length_replicate in Hlen.
  exists buckets. split; [|split; [done|]].
  - unfold get_word_buckets.
    rewrite bind_get_pattern_matrix, (lookup_row_covered _ _ _ Hg Hsome).
    unfold flatten. cbn [concat]. rewrite app_nil_r.
    unfold pattern_row at 1.
    rewrite bool_decide_true by (by apply omap_covered).
    unfold lift, pattern_row. by rewrite Hrun.
  - intros p Hp. eexists. split; [|split; [|reflexivity]].
    + rewrite (Hat (N.to_nat p) []).
      * by rewrite N2Nat.id.
      * apply lookup_replicate_2. change (3 ^ 5) with (N.to_nat (3 ^ 5)%N). lia.
    + by rewrite get_possible_words_run.
Qed.

Lemma bucket_append_Permutation buckets index w buckets' :
  bucket_append buckets index w = Ok buckets' →
  length buckets' = length buckets ∧ concat buckets' ≡ₚ w :: concat buckets.
Proof.
  unfold bucket_append.
  destruct (buckets !! N.to_nat index) as [b|] eqn:Hb; [|done]. intros [= <-].
  split; [by rewrite length_insert|].
  rewrite <- (take_drop_middle _ _ _ Hb) at 2.
  rewrite insert_take_drop by (by eapply lookup_lt_Some).
  rewrite !concat_app. cbn [concat].
  rewrite <- (app_assoc b [w]). cbn [app].
  by rewrite <- !Permutation_middle.
Qed.

Lemma fold_bucket_append_Permutation (pairs : list (N * string)) buckets buckets' :
  foldl (λ acc iw, b ← acc; bucket_append b iw.1 iw.2) (Ok buckets) pairs
  = Ok buckets' →
  length buckets' = length buckets
  ∧ concat buckets' ≡ₚ pairs.*2 ++ concat buckets.
Proof.
  revert buckets. induction pairs as [|[index w] pairs IH]; intros buckets; cbn.
  - by intros [= <-].
  - destruct (bucket_append buckets index w) as [b1|e] eqn:Hb.
    + intros [Hlen Hperm]%IH. apply bucket_append_Permutation in Hb as [Hlen1 Hperm1].
      split; [congruence|]. rewrite Hperm, Hperm1. by rewrite Permutation_middle.
    + intros Hfold. exfalso. clear -Hfold.
      induction pairs as [|iw pairs IH]; [done|]. by apply IH.
Qed.

(** X7. Whenever [get_word_buckets] returns, it returns 3^5 buckets that
    hold the possible words, each as often as the list has it: no word is
    lost, none is added. *)
Theorem get_word_buckets_partition guess possible_words game_name s buckets s' :
  get_word_buckets guess possible_words game_name s = (Ok buckets, s') →
  length buckets = 3 ^ 5 ∧ concat buckets ≡ₚ possible_words.
Proof.
  unfold get_word_buckets. intros (m & s1 & _ & Hfold)%bind_Ok_inv.
  case_bool_decide as Hlen; [|done].
  apply lift_Ok_inv in Hfold as [Hfold _].
  apply fold_bucket_append_Permutation in Hfold as [Hl Hperm].
  rewrite length_replicate in Hl. split; [done|].
  rewrite Hperm, snd_zip by lia.
  assert (concat (replicate (3 ^ 5) ([] : list string)) = []) as ->.
  { generalize (3 ^ 5). intros n. induction n as [|n IH]; [done|]. cbn. exact IH. }
  by rewrite app_nil_r.
Qed.

(** X9. Feedback can be applied in either order: on a list covered for both
    guesses, filtering by one guess and pattern and then by another gives
    the list that filtering in the other order gives. *)
Theorem get_possible_words_commute guess1 pat1 guess2 pat2 word_list game_name s :
  is_Some (words_to_index (resident game_name s) !! guess1) →
  is_Some (words_to_index (resident game_name s) !! guess2) →
  Forall (λ w, is_Some (cached_pattern (resident game_name s) guess1 w)) word_list →
  Forall (λ w, is_Some (cached_pattern (resident game_name s) guess2 w)) word_list →
  ∃ kept1 kept2 both,
    get_possible_words guess1 pat1 word_list game_name s
    = (Ok kept1, loaded game_name s)
    ∧ get_possible_words guess2 pat2 word_list game_name s
      = (Ok kept2, loaded game_name s)
    ∧ get_possible_words guess2 pat2 kept1 game_name (loaded game_name s)
      = (Ok both, loaded game_name s)
    ∧ get_possible_words guess1 pat1 kept2 game_name (loaded game_name s)
      = (Ok both, loaded game_name s).
Proof.
  intros Hg1 Hg2 Hall1 Hall2.
  assert (∀ (P : string → Prop) `{∀ w, Decision (P w)} g,
            Forall (λ w, is_Some (cached_pattern (resident game_name s) g w)) word_list →
            Forall (λ w, is_Some (cached_pattern (resident game_name s) g w))
                   (filter P word_list)) as Hsub.
  { intros P ? g Hall. apply Forall_forall. intros w [_ Hw]%list_elem_of_filter.
    by apply (proj1 (Forall_forall _ _) Hall). }
  exists (filter (λ w, cached_pattern (resident game_name s) guess1 w = Some pat1)
                 word_list),
         (filter (λ w, cached_pattern (resident game_name s) guess2 w = Some pat2)
                 word_list),
         (filter (λ w, cached_pattern (resident game_name s) guess2 w = Some pat2)
            (filter (λ w, cached_pattern (resident game_name s) guess1 w = Some pat1)
                    word_list)).
  split; [by rewrite get_possible_words_run|].
  split; [by rewrite get_possible_words_run|].
  split.
  - rewrite get_possible_words_run; rewrite ?resident_loaded, ?loaded_idem;
      [done|done|by apply Hsub].
  - rewrite get_possible_words_run; rewrite ?resident_loaded, ?loaded_idem;
      [|done|by apply Hsub].
    f_equal. f_equal. rewrite !list_filter_filter.
    apply list_filter_iff. tauto.
Qed.

(** X10. The answer survives its own feedback: with a populated cache that
    covers the guess against the list, filtering a list that holds the
    answer by the pattern [get_pattern] gives for the guess and the answer
    keeps the answer, and leaves the world as it is. *)
Theorem answer_survives_filtering guess answer word_list game_name s d :
  PATTERN_GRID_DATA s = Some d →
  is_Some (words_to_index d !! guess) →
  Forall (λ w, is_Some (cached_pattern d guess w)) word_list →
  answer ∈ word_list →
  ∃ pat kept,
    get_pattern guess answer game_name s = (Ok pat, s)
    ∧ get_possible_words guess pat word_list game_name s = (Ok kept, s)
    ∧ answer ∈ kept.
Proof.
  intros Hcache [i Hi] Hall Hin.
  assert (resident game_name s = d) as Hres by (unfold resident; by rewrite Hcache).
  assert (loaded game_name s = s) as Hload by (unfold loaded; by rewrite Hcache).
  destruct (proj1 (Forall_forall _ _) Hall answer Hin) as [p Hp].
  exists p. eexists. split; [|split].
  - rewrite get_pattern_run, Hcache, Hi.
    unfold cached_pattern in Hp. rewrite Hi in Hp. cbn in Hp.
    destruct (words_to_index d !! answer) as [j|]; [|done].
    cbn in Hp. unfold grid_at. by rewrite Hp.
  - rewrite get_possible_words_run; rewrite ?Hres, ?Hload; [done|by eauto|done].
  - by apply list_elem_of_filter.
Qed.

Lemma fold_bucket_append_raise (pairs : list (N * string)) e :
  foldl (λ acc iw, b ← acc; bucket_append b iw.1 iw.2) (Raise e) pairs = Raise e.
Proof. induction pairs as [|iw pairs IH]; [done|]. exact IH. Qed.

Lemma fold_bucket_append_out_of_range (f : string → option N) (ws : list string)
    (acc : list (list string)) :
  Forall (λ w, is_Some (f w)) ws →
  Exists (λ w, ∃ p, f w = Some p ∧ length acc ≤ N.to_nat p) ws →
  foldl (λ acc iw, b ← acc; bucket_append b iw.1 iw.2) (Ok acc)
        (zip (omap f ws) ws) = Raise IndexError.
Proof.
  intros Hall. revert acc. induction Hall as [|w ws [p Hp] _ IH]; intros acc Hbad.
  - by apply Exists_nil in Hbad.
  - cbn [omap list_omap]. rewrite Hp. cbn [zip_with foldl fst snd mbind result_bind].
    destruct (decide (N.to_nat p < length acc)) as [Hlt|Hge].
    + destruct (lookup_lt_is_Some_2 acc (N.to_nat p) Hlt) as [b Hb].
      rewrite (bucket_append_lookup _ _ _ _ Hb). apply IH.
      apply Exists_cons in Hbad as [(q & Hq & Hle)|Hbad].
      * rewrite Hp in Hq. injection Hq as <-. lia.
      * eapply Exists_impl; [exact Hbad|]. intros x (q & Hq & Hle).
        exists q. by rewrite length_insert.
    + unfold bucket_append. rewrite lookup_ge_None_2 by lia.
      apply fold_bucket_append_raise.
Qed.

(** X8. A grid entry that is not a pattern is caught late: when the resident
    grid holds a value of 3^5 or more for the guess against one of the
    possible words, [get_word_buckets] raises [IndexError]. *)
Theorem get_word_buckets_out_of_range guess possible_words game_name s :
  is_Some (words_to_index (resident game_name s) !! guess) →
  Forall (λ w, is_Some (cached_pattern (resident game_name s) guess w))
         possible_words →
  Exists (λ w, ∃ p, cached_pattern (resident game_name s) guess w = Some p
                    ∧ (3 ^ 5 ≤ p)%N) possible_words →
  get_word_buckets guess possible_words game_name s
  = (Raise IndexError, loaded game_name s).
Proof.
  intros Hg Hall Hbad. unfold get_word_buckets.
  rewrite bind_get_pattern_matrix, (lookup_row_covered _ _ _ Hg Hall).
  unfold flatten. cbn [concat]. rewrite app_nil_r.
  unfold pattern_row at 1.
  rewrite bool_decide_true by (by apply omap_covered).
  unfold lift, pattern_row.
  rewrite fold_bucket_append_out_of_range; [done|done|].
  eapply Exists_impl; [exact Hbad|]. intros w (p & Hp & Hle).
  exists p. split; [done|]. rewrite length_replicate.
  change (3 ^ 5) with (N.to_nat (3 ^ 5)%N). lia.
Qed.

End BucketFacts.

Lemma get_word_buckets_are_filters_witness :
  ∃ buckets,
    get_word_buckets (env := toy) "abc" abc_words "abc" fresh
    = (Ok buckets, after_abc)
    ∧ buckets !! 0 = Some ["xyz"; "xyy"] ∧ buckets !! 8 = Some ["abd"]
    ∧ buckets !! 26 = Some ["abc"].
Proof.
  destruct (get_word_buckets_are_filters (env := toy) "abc" abc_words "abc" fresh)
    as (buckets & Hrun & _ & Hat).
  - vm_compute. eauto.
  - repeat constructor; eexists; (split; [by vm_compute|reflexivity]).
  - exists buckets. split; [exact Hrun|].
    destruct (Hat 0%N) as (k0 & H0 & _ & E0); [done|].
    destruct (Hat 8%N) as (k8 & H8 & _ & E8); [done|].
    destruct (Hat 26%N) as (k26 & H26 & _ & E26); [done|].
    split; [|split].
    + change (buckets !! N.to_nat 0 = Some ["xyz"; "xyy"]). rewrite H0, E0.
      by vm_compute.
    + change (buckets !! N.to_nat 8 = Some ["abd"]). rewrite H8, E8.
      by vm_compute.
    + change (buckets !! N.to_nat 26 = Some ["abc"]). rewrite H26, E26.
      by vm_compute.
Defined.

Lemma get_word_buckets_partition_witness :
  ∃ buckets s',
    get_word_buckets (env := toy) "abc" ["abd"; "xyy"; "abd"] "abc" fresh
    = (Ok buckets, s')
    ∧ length buckets = 3 ^ 5 ∧ concat buckets ≡ₚ ["abd"; "xyy"; "abd"].
Proof.
  assert (∃ buckets s',
            get_word_buckets (env := toy) "abc" ["abd"; "xyy"; "abd"] "abc" fresh
            = (Ok buckets, s')) as (buckets & s' & Hrun).
  { eexists _, _. vm_compute. reflexivity. }
  exists buckets, s'. split; [exact Hrun|].
  exact (get_word_buckets_partition (env := toy) _ _ _ _ _ _ Hrun).
Defined.

Lemma get_word_buckets_out_of_range_witness :
  get_word_buckets (env := toy) "abc" ["abc"] "abc" stale
  = (Raise IndexError, loaded (env := toy) "abc" stale).
Proof.
  apply (get_word_buckets_out_of_range (env := toy)).
  - vm_compute. eauto.
  - repeat constructor. vm_compute. eauto.
  - apply Exists_cons_hd. exists 250%N. split; [by vm_compute|by vm_compute].
Defined.

Lemma get_possible_words_commute_witness :
  ∃ kept1 kept2 both,
    get_possible_words (env := toy) "abc" 0 abc_words "abc" fresh
    = (Ok kept1, after_abc)
    ∧ get_possible_words (env := toy) "xyz" 8 abc_words "abc" fresh
      = (Ok kept2, after_abc)
    ∧ get_possible_words (env := toy) "xyz" 8 kept1 "abc" after_abc
      = (Ok both, after_abc)
    ∧ get_possible_words (env := toy) "abc" 0 kept2 "abc" after_abc
      = (Ok both, after_abc).
Proof.
  apply (get_possible_words_commute (env := toy) "abc" 0 "xyz" 8 abc_words "abc" fresh).
  - vm_compute. eauto.
  - vm_compute. eauto.
  - repeat constructor; vm_compute; eauto.
  - repeat constructor; vm_compute; eauto.
Defined.

Lemma answer_survives_filtering_witness :
  ∃ pat kept,
    get_pattern (env := toy) "abc" "xyy" "abc" after_abc = (Ok pat, after_abc)
    ∧ get_possible_words (env := toy) "abc" pat abc_words "abc" after_abc
      = (Ok kept, after_abc)
    ∧ "xyy" ∈ kept.
Proof.
  apply (answer_survives_filtering (env := toy) "abc" "xyy" abc_words "abc" after_abc
           (resident (env := toy) "abc" fresh)).
  - reflexivity.
  - vm_compute. eauto.
  - repeat constructor; vm_compute; eauto.
  - apply (bool_decide_unpack _). by vm_compute.
Defined.

(** ** Weights and scores *)

(** X11. A word without a prior makes [get_weights] raise [KeyError] with
    that word, the first such word of the list. *)
Theorem get_weights_unknown_word {F : Type} {num : Num F}
    (pre post : list string) (w : string) (priors : gmap string F) :
  Forall (λ x, is_Some (priors !! x)) pre → priors !! w = None →
  get_weights (pre ++ w :: post) priors = Raise (KeyError w).
Proof.
  intros Hpre Hw. unfold get_weights.
  by rewrite (mapM_dict_get_missing _ pre post w Hpre Hw).
Qed.

Lemma get_weights_unknown_word_witness :
  get_weights (F := Q) ["abc"; "zzz"; "abd"; "qqq"]
    (<["abc" := 1%Q]> (<["abd" := 3%Q]> ∅))
  = Raise (KeyError "zzz").
Proof.
  apply (get_weights_unknown_word (F := Q) ["abc"] ["abd"; "qqq"] "zzz").
  - repeat constructor. vm_compute. eauto.
  - by vm_compute.
Defined.

(** *** The heuristic over the real numbers *)

Lemma expected_score_at_least_one (ent : R) :
  (0 <= ent)%R → (1 <= entropy_to_expected_score (F := R) ent)%R.
Proof.
  intros Hpos. rewrite R_entropy_to_expected_score.
  assert (Rpower 2 (- ent) <= Rpower 2 0)%R as H1 by (apply Rle_Rpower; lra).
  rewrite Rpower_O in H1 by lra. lra.
Qed.

(** X14. Over the real numbers, the expected score of a candidate,
    [prob + (1 - prob) * (1 + entropy_to_expected_score (h0 - h1))], is at
    least one guess when [prob] is a probability and the guess does not
    leave more entropy than there was; it is exactly one for a candidate
    that is certain to be the answer. *)
Theorem one_ply_score_at_least_one (h0 prob h1 : R) :
  (0 <= prob <= 1)%R → (h1 <= h0)%R →
  one_ply_score (F := R) h0 prob h1
  = (prob + (1 - prob) * (1 + entropy_to_expected_score (F := R) (h0 - h1)))%R
  ∧ (1 <= one_ply_score (F := R) h0 prob h1)%R
  ∧ one_ply_score (F := R) h0 1%R h1 = 1%R.
Proof.
  intros Hprob Hgain.
  assert (∀ p, one_ply_score (F := R) h0 p h1
               = (p + (1 - p) * (1 + entropy_to_expected_score (F := R) (h0 - h1)))%R)
    as Hform.
  { intros p. unfold one_ply_score. rewrite !R_fnat. reflexivity. }
  pose proof (expected_score_at_least_one (h0 - h1)%R ltac:(lra)) as Hets.
  rewrite !Hform. split; [done|]. split; [nra|lra].
Qed.

Lemma one_ply_score_at_least_one_witness :
  (1 <= one_ply_score (F := R) 3 (1 / 2) 1)%R.
Proof.
  destruct (one_ply_score_at_least_one 3 (1 / 2) 1) as (_ & H & _); [lra|lra|].
  exact H.
Defined.

(** ** Degenerate calls of the solver *)

Section NoPossibleWords.
Context {F : Type} {num : Num F} {tr : Transcendental F} {env : Collaborators}.

(** X15. With no possible answer left, [get_score_lower_bounds] and
    [get_expected_scores] raise [ValueError]; [optimal_guess], outside pure
    information maximisation, raises [ValueError] too, for the empty list
    of allowed words first; [brute_force_optimal_guess] returns the first
    of all words, or raises [IndexError] when there is none.  Each call
    leaves the pattern cache and the disk as they were. *)
Theorem no_possible_words allowed_words (priors : gmap string F) game_name
    look_two_ahead uniform n_top fuel n_top_picks s :
  get_score_lower_bounds (F := F) allowed_words [] game_name s
  = (Raise (ValueError "No possible words available for guessing."), s)
  ∧ get_expected_scores allowed_words [] priors game_name look_two_ahead n_top s
    = (Raise (ValueError "No possible words available for guessing."), s)
  ∧ optimal_guess allowed_words [] priors game_name look_two_ahead uniform false s
    = (Raise (ValueError
                (if bool_decide (allowed_words = [])
                 then "No allowed words available."
                 else "No possible words available for guessing.")), s)
  ∧ brute_force_optimal_guess fuel allowed_words [] priors game_name n_top_picks s
    = (from_option Ok (Raise IndexError) (head allowed_words), s).
Proof.
  split; [done|]. split; [done|]. split.
  - unfold optimal_guess, optimal_guess_over.
    destruct allowed_words as [|w ws]; [done|].
    rewrite bool_decide_false by done. rewrite bool_decide_false by done.
    by destruct uniform.
  - unfold brute_force_optimal_guess, lift, list_get. cbn.
    by destruct allowed_words.
Qed.

End NoPossibleWords.

(** The model of [np.argsort] returns each index once. *)
Lemma insert_index_Permutation {A : Type} (lt : A → A → bool) ix l :
  insert_index lt ix l ≡ₚ ix :: l.
Proof.
  induction l as [|jy l IH]; [done|]. cbn.
  destruct (lt jy.2 ix.2); [|done].
  rewrite IH. apply Permutation_swap.
Qed.

Lemma stable_argsort_Permutation {A : Type} (lt : A → A → bool) (l : list A) :
  stable_argsort lt l ≡ₚ seq 0 (length l).
Proof.
  unfold stable_argsort.
  assert (∀ ps : list (nat * A), foldr (insert_index lt) [] ps ≡ₚ ps) as Hperm.
  { induction ps as [|p ps IH]; [done|]. cbn.
    by rewrite insert_index_Permutation, IH. }
  rewrite Hperm, fst_zip; [done|]. by rewrite length_seq.
Qed.

Lemma stable_argsort_length {A : Type} (lt : A → A → bool) (l : list A) :
  length (stable_argsort lt l) = length l.
Proof. by rewrite stable_argsort_Permutation, length_seq. Qed.

Lemma stable_argsort_lt {A : Type} (lt : A → A → bool) (l : list A) i :
  i ∈ stable_argsort lt l → i < length l.
Proof.
  rewrite stable_argsort_Permutation, elem_of_seq. lia.
Qed.

(** X16. Over the real numbers, with at least one allowed word and a
    shortlist of at least one candidate, the two-step lookahead of
    [get_expected_scores] raises whenever fewer than 3^5 possible answers
    are left: the refinement of the first shortlisted candidate asks
    [optimal_guess] for a second guess in each of the 3^5 buckets, and the
    call for an empty bucket raises [ValueError]. *)
Theorem lookahead_raises_below_full_buckets {env : Collaborators}
    allowed_words possible_words (priors : gmap string R) game_name n_top s :
  possible_words ≠ [] →
  Forall (λ w, is_Some (priors !! w)) possible_words →
  covers (resident game_name s) allowed_words possible_words →
  allowed_words ≠ [] → 0 < n_top → length possible_words < 3 ^ 5 →
  ∃ e s',
    get_expected_scores (F := R) allowed_words possible_words priors game_name
      true n_top s = (Raise e, s').
Proof.
  intros Hne Hpri Hcov Hallowed Htop Hfew.
  destruct (get_expected_scores (F := R) allowed_words possible_words priors
              game_name true n_top s) as [[scores|e] s'] eqn:Hrun; [|by eauto].
  exfalso.
  destruct (two_ply_no_shortlist (F := R) allowed_words possible_words priors
              game_name s Hne Hpri Hcov) as (one & Hone & _ & Hlen).
  assert (get_expected_scores (F := R) allowed_words possible_words priors
            game_name false n_top s = (Ok one, loaded game_name s)) as Hone'
    by exact Hone.
  destruct (two_ply_returns_only_with_full_buckets _ _ _ _ _ _ _ _ _ _ Hrun Hone')
    as [Hnil|Hfull]; [|lia].
  apply (f_equal length) in Hnil. rewrite length_take in Hnil.
  change (np_argsort one) with (stable_argsort R_ltb one) in Hnil.
  rewrite stable_argsort_length, Hlen in Hnil.
  destruct allowed_words; [done|]. cbn in Hnil. lia.
Qed.

Lemma lookahead_raises_below_full_buckets_witness :
  ∃ e s',
    get_expected_scores (F := R) (env := toy) ["abc"; "xyz"] ["abc"; "abd"]
      (<["abc" := 1%R]> (<["abd" := 3%R]> ∅)) "abc" true 1 fresh = (Raise e, s').
Proof.
  apply (lookahead_raises_below_full_buckets (env := toy)).
  - discriminate.
  - repeat constructor; eexists; reflexivity.
  - split; repeat constructor; vm_compute; eauto.
  - discriminate.
  - lia.
  - cbn. lia.
Defined.

(** ** The uniform policy *)

Lemma bucket_count_le_length (row : list N) : bucket_count row ≤ length row.
Proof.
  rewrite bucket_count_alt, <- (length_map N.to_nat row).
  apply submseteq_length, NoDup_submseteq.
  - apply NoDup_filter, NoDup_seq.
  - by intros p [Hp _]%list_elem_of_filter.
Qed.

Lemma length_pattern_row d answers guess :
  length (pattern_row d answers guess) ≤ length answers.
Proof.
  unfold pattern_row. induction answers as [|a answers IH]; [done|].
  cbn. destruct (cached_pattern d guess a); cbn; lia.
Qed.

Lemma lower_bound_le_iff (n : nat) (b b' : bool) (k k' : nat) :
  0 < n →
  (lower_bound (F := Q) n b k <= lower_bound (F := Q) n b' k')%Q
  ↔ k' + Nat.b2n b' ≤ k + Nat.b2n b.
Proof.
  intros Hn. rewrite !lower_bound_Q by done. rewrite Q_div_le_iff by done.
  destruct b, b'; cbn; lia.
Qed.

Lemma lower_bound_lt_iff (n : nat) (b b' : bool) (k k' : nat) :
  0 < n →
  (lower_bound (F := Q) n b k < lower_bound (F := Q) n b' k')%Q
  ↔ k' + Nat.b2n b' < k + Nat.b2n b.
Proof.
  intros Hn.
  pose proof (lower_bound_le_iff n b' b k' k Hn) as Hle. split.
  - intros Hlt%Qlt_not_le. rewrite Hle in Hlt. lia.
  - intros Hlt. apply Qnot_le_lt. rewrite Hle. lia.
Qed.

(** ** The games of the brute-force verifier *)

Section VerifierGames.
Context {tr : Transcendental Q} {env : Collaborators}.
Variables (s : world) (d : grid_data) (all_words : list string).
Variables (priors : gmap string Q) (game_name : string).
Hypothesis cache_populated : PATTERN_GRID_DATA s = Some d.
Hypothesis grid_genuine : genuine_grid d all_words.

Local Abbreviation next_guess P :=
  (optimal_guess (F := Q) all_words P priors game_name false true false s).
Local Abbreviation bucket g p P :=
  (filter (λ w, cached_pattern d g w = Some p) P).

(** From the guess of the uniform policy on, a game takes fewer further
    turns than possibilities are left, whatever the bound on the turns. *)
Lemma play_bounded n a :
  ∀ P g score,
    length P ≤ n → NoDup P → P ⊆ all_words → a ∈ P → next_guess P = (Ok g, s) →
    ∃ r, (∀ fuel, length P ≤ fuel →
            play fuel all_words priors game_name a g P score s = (Ok r, s))
         ∧ score ≤ r ∧ r + 1 ≤ score + length P.
Proof.
  induction n as [|n IH]; intros P g score Hn Hnd Hsub Ha Hguess.
  { destruct P; [by apply elem_of_nil in Ha|cbn in Hn; lia]. }
  assert (0 < length P) as Hpos by (destruct P; [by apply elem_of_nil in Ha|cbn; lia]).
  destruct (decide (g = a)) as [->|Heq].
  { exists score. split; [|lia]. intros [|fuel] Hfuel; [lia|].
    cbn [play]. by rewrite bool_decide_true. }
  destruct (next_guess_run s d all_words priors game_name cache_populated
              grid_genuine P) as (g' & Hrun & Hg & _);
    [by intros ->; apply elem_of_nil in Ha|done|].
  rewrite Hguess in Hrun. injection Hrun as <-.
  destruct (get_pattern_populated s d all_words game_name cache_populated
              grid_genuine g a Hg (Hsub a Ha)) as (p & Hpat & Hp).
  assert (a ∈ bucket g p P) as Ha' by (by apply list_elem_of_filter).
  assert (bucket g p P ⊆ all_words) as Hsub'
    by (intros w [_ Hw]%list_elem_of_filter; by apply Hsub).
  destruct (next_guess_run s d all_words priors game_name cache_populated
              grid_genuine (bucket g p P)) as (g' & Hguess' & _);
    [by intros Hnil; rewrite Hnil in Ha'; apply elem_of_nil in Ha'|done|].
  pose proof (next_guess_progress s d all_words priors game_name cache_populated
                grid_genuine P a g p Hnd Hsub Ha Hguess Heq Hp) as Hless.
  destruct (IH (bucket g p P) g' (score + 1)) as (r & Hr & Hle & Hup);
    [lia|by apply NoDup_filter|done|done|done|].
  exists r. split; [|lia]. intros [|fuel] Hfuel; [lia|].
  cbn [play]. rewrite bool_decide_false by done.
  rewrite bind_run, Hpat, bind_run.
  rewrite (get_possible_words_bucket s d all_words game_name cache_populated
             grid_genuine) by done.
  rewrite bind_run, Hguess'. apply Hr. lia.
Qed.

(** X19. In the games of [brute_force_optimal_guess], with a populated
    cache whose grid is genuine on all words and possible answers that are
    free of duplicates and all among them: the game for an answer among
    the possibilities, opened with any word, comes to an end, and its
    score is the same for every bound on the turns above the number of
    possibilities.  The score is 1 exactly when the opening guess is the
    answer, it is at most one more than there are possibilities, and at
    most their number when the opening guess is one of them. *)
Theorem verifier_game_ends P a c :
  NoDup P → P ⊆ all_words → a ∈ P → c ∈ all_words →
  ∃ r, (∀ fuel, length P < fuel →
          play fuel all_words priors game_name a c P 1 s = (Ok r, s))
       ∧ 1 ≤ r ≤ length P + 1
       ∧ (c ∈ P → r ≤ length P)
       ∧ (r = 1 ↔ c = a).
Proof.
  intros Hnd Hsub Ha Hc.
  assert (0 < length P) as Hpos by (destruct P; [by apply elem_of_nil in Ha|cbn; lia]).
  destruct (decide (c = a)) as [->|Heq].
  { exists 1. split; [|split; [lia|split; [lia|done]]].
    intros [|fuel] Hfuel; [lia|]. cbn [play]. by rewrite bool_decide_true. }
  destruct (get_pattern_populated s d all_words game_name cache_populated
              grid_genuine c a Hc (Hsub a Ha)) as (p & Hpat & Hp).
  assert (a ∈ bucket c p P) as Ha' by (by apply list_elem_of_filter).
  assert (bucket c p P ⊆ all_words) as Hsub'
    by (intros w [_ Hw]%list_elem_of_filter; by apply Hsub).
  destruct (next_guess_run s d all_words priors game_name cache_populated
              grid_genuine (bucket c p P)) as (g & Hguess & _);
    [by intros Hnil; rewrite Hnil in Ha'; apply elem_of_nil in Ha'|done|].
  destruct (play_bounded (length (bucket c p P)) a (bucket c p P) g (1 + 1))
    as (r & Hr & Hle & Hup); [done|by apply NoDup_filter|done|done|done|].
  pose proof (length_filter (λ w, cached_pattern d c w = Some p) P) as Hsize.
  exists r. split; [|split; [lia|split; [|split; [lia|done]]]].
  - intros [|fuel] Hfuel; [lia|].
    cbn [play]. rewrite bool_decide_false by done.
    rewrite bind_run, Hpat, bind_run.
    rewrite (get_possible_words_bucket s d all_words game_name cache_populated
               grid_genuine) by done.
    rewrite bind_run, Hguess. apply Hr. lia.
  - intros HcP.
    assert (length (bucket c p P) < length P) as Hless; [|lia].
    apply (length_filter_lt _ _ c); [done|]. intros Hcc.
    destruct (genuine_grid_pattern d all_words c a grid_genuine Hc (Hsub a Ha))
      as (p' & Hp' & _ & Hown).
    rewrite Hp in Hp'. injection Hp' as <-. apply Heq. symmetry. by apply Hown.
Qed.

End VerifierGames.

Lemma verifier_game_ends_witness :
  ∃ r, (∀ fuel, length abc_words < fuel →
          play (F := Q) (tr := no_transcendentals) (env := toy) fuel abc_words ∅
            "abc" "xyy" "abc" abc_words 1 after_abc = (Ok r, after_abc))
       ∧ 1 ≤ r ≤ length abc_words + 1
       ∧ ("abc" ∈ abc_words → r ≤ length abc_words)
       ∧ (r = 1 ↔ "abc" = "xyy").
Proof.
  apply (verifier_game_ends (tr := no_transcendentals) (env := toy)
           after_abc (resident (env := toy) "abc" fresh) abc_words ∅ "abc").
  - reflexivity.
  - unfold abc_words. check_genuine.
  - apply (bool_decide_unpack _). by vm_compute.
  - done.
  - apply (bool_decide_unpack _). by vm_compute.
  - apply (bool_decide_unpack _). by vm_compute.
Defined.

(** ** [brute_force_optimal_guess] *)

Lemma mapM_list_get_Ok {A : Type} (l : list A) (indices : list nat) (xs : list A) :
  mapM (list_get l) indices = Ok xs →
  Forall2 (λ i x, l !! i = Some x) indices xs.
Proof.
  revert xs. induction indices as [|i indices IH]; intros xs.
  - intros [= <-]. constructor.
  - rewrite mapM_result_cons.
    destruct (list_get l i) as [x|e] eqn:Hx; [|done].
    destruct (mapM (list_get l) indices) as [xs'|e]; [|done].
    intros [= <-]. constructor; [by apply list_get_Ok|by apply IH].
Qed.

Lemma mapM_list_get_total {A : Type} (l : list A) (indices : list nat) :
  Forall (λ i, i < length l) indices →
  ∃ xs, mapM (list_get l) indices = Ok xs.
Proof.
  intros Hall.
  destruct (mapM_result_total (list_get l) indices) as (xs & Hxs & _); [|by eauto].
  eapply Forall_impl; [exact Hall|]. intros i Hi. by apply list_get_lt.
Qed.

Section BruteForceAny.
Context {F : Type} {num : Num F} {tr : Transcendental F} {env : Collaborators}.

(** X20. A word that [brute_force_optimal_guess] returns is one of
    [all_words]; and with possible answers left it returns a word only
    for a shortlist of at least one candidate: with [n_top_picks = 0] the
    minimum is taken over an empty list. *)
Theorem brute_force_returns_listed_word fuel all_words possible_words
    (priors : gmap string F) game_name n_top_picks s w s' :
  brute_force_optimal_guess fuel all_words possible_words priors game_name
    n_top_picks s = (Ok w, s') →
  w ∈ all_words
  ∧ (if bool_decide (possible_words = []) then all_words !! 0 = Some w ∧ s' = s
     else 0 < n_top_picks).
Proof.
  unfold brute_force_optimal_guess. case_bool_decide as Hlen.
  - intros [Hget%list_get_Ok ->]%lift_Ok_inv.
    split; [by eapply list_elem_of_lookup_2|].
    rewrite bool_decide_true by (by destruct possible_words). done.
  - intros (es & s1 & _ & Hrest)%bind_Ok_inv.
    apply bind_Ok_inv in Hrest as (top & s2 & [Htop%mapM_list_get_Ok _]%lift_Ok_inv & Hrest).
    apply bind_Ok_inv in Hrest as (avgs & s3 & _ & Hrest).
    apply bind_Ok_inv in Hrest as (i & s4 & _ & [Hget%list_get_Ok _]%lift_Ok_inv).
    destruct (Forall2_lookup_r _ _ _ _ _ Htop Hget) as (j & Hj & Hw).
    split; [by eapply list_elem_of_lookup_2|].
    rewrite bool_decide_false by (by intros ->).
    destruct n_top_picks; [|lia]. by rewrite take_0 in Hj.
Qed.

End BruteForceAny.

Lemma brute_force_returns_listed_word_witness :
  ∃ w s',
    brute_force_optimal_guess (F := Q) (tr := no_transcendentals) (env := toy)
      5 abc_words abc_words ∅ "abc" 2 after_abc = (Ok w, s')
    ∧ w ∈ abc_words.
Proof.
  destruct (brute_force_optimal_guess (F := Q) (tr := no_transcendentals)
              (env := toy) 5 abc_words abc_words ∅ "abc" 2 after_abc)
    as [[w|e] s'] eqn:Hrun.
  - exists w, s'. split; [done|].
    by destruct (brute_force_returns_listed_word _ _ _ _ _ _ _ _ _ Hrun).
  - exfalso. apply (f_equal fst) in Hrun. vm_compute in Hrun. discriminate Hrun.
Defined.

(** ** The policies that read entropies *)

(** [np.argmin] and [np.argmax] return the first index of an extreme
    value, for every comparison that is the strict part of a total
    preorder. *)
Section ArgFirst.
Context {A : Type} (le : A → A → Prop) (better : A → A → bool).
Hypothesis le_trans : ∀ x y z, le x y → le y z → le x z.
Hypothesis le_total : ∀ x y, le x y ∨ le y x.
Hypothesis le_dec : ∀ x y, le x y ∨ ¬ le x y.
Hypothesis better_spec : ∀ x y, better x y = true ↔ ¬ le y x.

Lemma arg_best_first_of (l pre : list A) (i : nat) (best : nat * A) :
  length pre = i → pre !! best.1 = Some best.2 →
  (∀ y, y ∈ pre → le best.2 y) →
  (∀ j y, j < best.1 → pre !! j = Some y → ¬ le y best.2) →
  ∃ x, (pre ++ l) !! arg_best better l i best = Some x
       ∧ (∀ y, y ∈ pre ++ l → le x y)
       ∧ ∀ j y, j < arg_best better l i best → (pre ++ l) !! j = Some y → ¬ le y x.
Proof.
  revert pre i best.
  induction l as [|z l IH]; intros pre i best Hlen Hbest Hmin Hfirst.
  - cbn. rewrite app_nil_r. eauto.
  - cbn [arg_best].
    replace (pre ++ z :: l) with ((pre ++ [z]) ++ l) by (by rewrite <- app_assoc).
    assert (best.1 < length pre) as Hlt by (by eapply lookup_lt_Some).
    destruct (better z best.2) eqn:Hz; cbn [fst snd].
    + apply better_spec in Hz.
      assert (le z best.2) as Hzle by (by destruct (le_total z best.2)).
      apply IH; cbn [fst snd].
      * rewrite length_app. cbn. lia.
      * rewrite lookup_app_r by lia. by rewrite Hlen, Nat.sub_diag.
      * intros y [Hy|Hy%list_elem_of_singleton]%elem_of_app.
        -- eapply le_trans; [exact Hzle|by apply Hmin].
        -- subst y. by destruct (le_total z z).
      * intros j y Hj Hjy Hyz. rewrite lookup_app_l in Hjy by lia.
        apply Hz. eapply le_trans; [|exact Hyz].
        apply Hmin. by eapply list_elem_of_lookup_2.
    + assert (le best.2 z) as Hle.
      { destruct (le_dec best.2 z) as [?|Hn]; [done|].
        apply better_spec in Hn. congruence. }
      apply IH.
      * rewrite length_app. cbn. lia.
      * by rewrite lookup_app_l.
      * intros y [Hy|Hy%list_elem_of_singleton]%elem_of_app; [by apply Hmin|].
        by subst y.
      * intros j y Hj Hjy. rewrite lookup_app_l in Hjy by lia. by eapply Hfirst.
Qed.

End ArgFirst.

Lemma R_ltb_spec (x y : R) : R_ltb x y = true ↔ ¬ (y <= x)%R.
Proof. unfold R_ltb. destruct (Rlt_dec x y); split; (done || lra). Qed.

Lemma R_np_argmin_first (l : list R) (i : nat) :
  np_argmin l = Ok i →
  ∃ x, l !! i = Some x ∧ (∀ y, y ∈ l → (x <= y)%R)
       ∧ ∀ j y, j < i → l !! j = Some y → (x < y)%R.
Proof.
  destruct l as [|z l]; [done|]. intros [= <-].
  destruct (arg_best_first_of Rle R_ltb) with (l := l) (pre := [z]) (i := 1)
    (best := (0, z)) as (x & Hx & Hmin & Hfirst).
  - intros x y z'. apply Rle_trans.
  - intros x y. lra.
  - intros x y. lra.
  - apply R_ltb_spec.
  - done.
  - done.
  - intros y ->%list_elem_of_singleton. cbn. lra.
  - intros j y Hj. cbn in Hj. lia.
  - exists x. split; [exact Hx|]. split; [exact Hmin|].
    intros j y Hj Hy. specialize (Hfirst j y Hj Hy). lra.
Qed.

Lemma R_np_argmax_first (l : list R) (i : nat) :
  np_argmax l = Ok i →
  ∃ x, l !! i = Some x ∧ (∀ y, y ∈ l → (y <= x)%R)
       ∧ ∀ j y, j < i → l !! j = Some y → (y < x)%R.
Proof.
  destruct l as [|z l]; [done|]. intros [= <-].
  destruct (arg_best_first_of (λ a b, (b <= a)%R) (λ a b, R_ltb b a))
    with (l := l) (pre := [z]) (i := 1) (best := (0, z))
    as (x & Hx & Hmax & Hfirst).
  - intros x y z' ? ?. by apply Rle_trans with y.
  - intros x y. lra.
  - intros x y. lra.
  - intros x y. apply R_ltb_spec.
  - done.
  - done.
  - intros y ->%list_elem_of_singleton. cbn. lra.
  - intros j y Hj. cbn in Hj. lia.
  - exists x. split; [exact Hx|]. split; [exact Hmax|].
    intros j y Hj Hy. specialize (Hfirst j y Hj Hy). cbn in Hfirst. lra.
Qed.

Section EntropyPolicies.
Context {env : Collaborators}.

(** X22. Over the real numbers, under pure information maximisation, with
    a number of possible answers other than one, priors for all of them
    and a resident grid that covers them together with the allowed words
    (which are not empty): [optimal_guess] returns the allowed word whose
    guess leaves the pattern distribution of greatest entropy, and among
    equals the one that comes first in [allowed_words]. *)
Theorem pure_policy_greatest_entropy allowed_words possible_words
    (priors : gmap string R) game_name look_two_ahead uniform s :
  allowed_words ≠ [] → length possible_words ≠ 1 →
  Forall (λ w, is_Some (priors !! w)) possible_words →
  covers (resident game_name s) allowed_words possible_words →
  ∃ weights i guess,
    get_weights possible_words priors = Ok weights
    ∧ optimal_guess (F := R) allowed_words possible_words priors game_name
        look_two_ahead uniform true s = (Ok guess, loaded game_name s)
    ∧ allowed_words !! i = Some guess
    ∧ (∀ w, w ∈ allowed_words →
         (pattern_entropy (resident game_name s) possible_words weights w
          <= pattern_entropy (resident game_name s) possible_words weights guess)%R)
    ∧ (∀ j w, j < i → allowed_words !! j = Some w →
         (pattern_entropy (resident game_name s) possible_words weights w
          < pattern_entropy (resident game_name s) possible_words weights guess)%R).
Proof.
  intros Hallowed Hlen Hpri Hcov.
  destruct (get_weights_run _ priors Hpri) as [Hw _].
  set (weights := if feqb _ _ then _ else _) in Hw.
  exists weights.
  assert (optimal_guess (F := R) allowed_words possible_words priors game_name
            look_two_ahead uniform true s
          = (i ← np_argmax (map (pattern_entropy (resident game_name s)
                                   possible_words weights) allowed_words);
             list_get allowed_words i, loaded game_name s)) as ->.
  { unfold optimal_guess, optimal_guess_over.
    destruct possible_words as [|only [|second rest]]; [|done|].
    all: rewrite bind_run; unfold lift at 1; rewrite Hw;
      rewrite bind_run, get_entropies_run, lookup_matrix_covered by done;
      cbn [mbind result_bind]; rewrite bind_run; unfold lift at 1;
      rewrite map_map; unfold pattern_entropy;
      by destruct (np_argmax _). }
  edestruct (np_argmax_bound (F := R)) as (i & Hi & Hlt);
    [|rewrite Hi]; [by destruct allowed_words|].
  rewrite length_map in Hlt.
  destruct (list_get_lt allowed_words i Hlt) as [g Hg].
  cbn [mbind result_bind]. rewrite Hg.
  exists i, g. split; [done|]. split; [done|].
  apply list_get_Ok in Hg. split; [done|].
  apply R_np_argmax_first in Hi as (x & Hx & Hmax & Hfirst).
  rewrite list_lookup_fmap, Hg in Hx. injection Hx as <-.
  split.
  - intros w Hw'. apply Hmax, list_elem_of_fmap. by exists w.
  - intros j w Hj Hw'. apply (Hfirst j); [done|].
    by rewrite list_lookup_fmap, Hw'.
Qed.

(** X23. Over the real numbers, under the default policy one guess ahead,
    with possible answers that are not empty and have priors and a
    resident grid that covers them together with the allowed words (which
    are not empty): [optimal_guess] returns the allowed word at the first
    index that holds the least of the scores [get_expected_scores]
    returns. *)
Theorem default_policy_least_expected_score allowed_words possible_words
    (priors : gmap string R) game_name n_top s :
  allowed_words ≠ [] → possible_words ≠ [] →
  Forall (λ w, is_Some (priors !! w)) possible_words →
  covers (resident game_name s) allowed_words possible_words →
  ∃ scores i guess score,
    get_expected_scores (F := R) allowed_words possible_words priors game_name
      false n_top s = (Ok scores, loaded game_name s)
    ∧ optimal_guess (F := R) allowed_words possible_words priors game_name
        false false false s = (Ok guess, loaded game_name s)
    ∧ allowed_words !! i = Some guess
    ∧ scores !! i = Some score
    ∧ (∀ y, y ∈ scores → (score <= y)%R)
    ∧ (∀ j y, j < i → scores !! j = Some y → (score < y)%R).
Proof.
  intros Hallowed Hne Hpri Hcov.
  destruct (one_ply_scores_run (F := R) _ _ _ _ _ Hne Hpri Hcov)
    as (weights & wtw & _ & _ & Hrun).
  set (scores := map (λ w, one_ply_score _ _ _) allowed_words) in Hrun.
  assert (length scores = length allowed_words) as Hlen by apply length_map.
  exists scores.
  unfold optimal_guess, optimal_guess_over, get_expected_scores,
    get_expected_scores_over.
  rewrite bool_decide_false by (by destruct allowed_words).
  rewrite !bind_run, Hrun. cbn [negb op_scores]. unfold mret at 1 2, M_ret.
  rewrite bool_decide_false by (rewrite Hlen; by destruct allowed_words).
  rewrite bind_run. unfold lift at 1.
  edestruct (np_argmin_bound (F := R) scores) as (i & Hi & Hlt);
    [|rewrite Hi]; [destruct scores; [by destruct allowed_words|done]|].
  destruct (list_get_lt allowed_words i) as [g Hg]; [lia|].
  unfold lift. rewrite Hg.
  apply R_np_argmin_first in Hi as (x & Hx & Hmin & Hfirst).
  exists i, g, x. split; [done|]. split; [done|].
  apply list_get_Ok in Hg. done.
Qed.

End EntropyPolicies.

Lemma pure_policy_greatest_entropy_witness :
  ∃ weights i guess,
    get_weights ["abc"; "abd"] (<["abc" := 1%R]> (<["abd" := 3%R]> ∅)) = Ok weights
    ∧ optimal_guess (F := R) (env := toy) ["xyz"; "abc"] ["abc"; "abd"]
        (<["abc" := 1%R]> (<["abd" := 3%R]> ∅)) "abc" false false true fresh
      = (Ok guess, loaded (env := toy) "abc" fresh)
    ∧ ["xyz"; "abc"] !! i = Some guess.
Proof.
  destruct (pure_policy_greatest_entropy (env := toy) ["xyz"; "abc"] ["abc"; "abd"]
              (<["abc" := 1%R]> (<["abd" := 3%R]> ∅)) "abc" false false fresh)
    as (weights & i & guess & Hw & Hrun & Hi & _).
  - discriminate.
  - cbn. lia.
  - repeat constructor; eexists; reflexivity.
  - split; repeat constructor; vm_compute; eauto.
  - exists weights, i, guess. split; [exact Hw|]. split; [exact Hrun|exact Hi].
Defined.

Lemma default_policy_least_expected_score_witness :
  ∃ scores i guess score,
    get_expected_scores (F := R) (env := toy) ["xyz"; "abc"] ["abc"; "abd"]
      (<["abc" := 1%R]> (<["abd" := 3%R]> ∅)) "abc" false 25 fresh
    = (Ok scores, loaded (env := toy) "abc" fresh)
    ∧ optimal_guess (F := R) (env := toy) ["xyz"; "abc"] ["abc"; "abd"]
        (<["abc" := 1%R]> (<["abd" := 3%R]> ∅)) "abc" false false false fresh
      = (Ok guess, loaded (env := toy) "abc" fresh)
    ∧ ["xyz"; "abc"] !! i = Some guess
    ∧ scores !! i = Some score
    ∧ (∀ y, y ∈ scores → (score <= y)%R).
Proof.
  destruct (default_policy_least_expected_score (env := toy) ["xyz"; "abc"]
              ["abc"; "abd"] (<["abc" := 1%R]> (<["abd" := 3%R]> ∅)) "abc" 25 fresh)
    as (scores & i & guess & score & Hs & Hrun & Hi & Hsc & Hmin & _).
  - discriminate.
  - discriminate.
  - repeat constructor; eexists; reflexivity.
  - split; repeat constructor; vm_compute; eauto.
  - exists scores, i, guess, score. split; [exact Hs|]. split; [exact Hrun|].
    split; [exact Hi|]. split; [exact Hsc|exact Hmin].
Defined.

(** * The two-step lookahead on real games *)

Section LookaheadRaises.
Context {F : Type} {num : Num F} {tr : Transcendental F} {env : Collaborators}.

Lemma ret_run {A : Type} (a : A) (s : world) : (mret a : M A) s = (Ok a, s).
Proof. reflexivity. Qed.

(** A list comprehension over the buckets stops at the first one whose
    call raises. *)
Lemma mapM_first_empty_raises (second_guess : list string → M string)
    (buckets : list (list string)) (s : world) (e : error) :
  [] ∈ buckets →
  (∀ b, b ∈ buckets → b ≠ [] → ∃ g, second_guess b s = (Ok g, s)) →
  second_guess [] s = (Raise e, s) →
  ∃ s', mapM second_guess buckets s = (Raise e, s') ∧ s' = s.
Proof.
  intros Hin Hok Hraise. exists s. split; [|done].
  induction buckets as [|b buckets IH]; [by apply elem_of_nil in Hin|].
  cbn [mapM]. rewrite bind_run.
  destruct b as [|w b].
  - by rewrite Hraise.
  - destruct (Hok (w :: b)) as [g Hg]; [left|done|]. rewrite Hg.
    rewrite bind_run, IH; [done| |].
    + apply elem_of_cons in Hin as [?|?]; [done|done].
    + intros b' Hb'. apply Hok. by right.
Qed.

Lemma optimal_guess_one_ahead_run allowed_words possible_words
    (priors : gmap string F) game_name s :
  allowed_words ≠ [] → possible_words ≠ [] →
  Forall (λ w, is_Some (priors !! w)) possible_words →
  covers (resident game_name s) allowed_words possible_words →
  ∃ g, optimal_guess_one_ahead allowed_words possible_words priors game_name s
       = (Ok g, loaded game_name s).
Proof.
  intros Hallowed Hne Hpri Hcov.
  unfold optimal_guess_one_ahead, optimal_guess_over.
  rewrite bool_decide_false by (by destruct allowed_words).
  destruct (one_ply_scores_run _ _ _ _ _ Hne Hpri Hcov)
    as (weights & wtw & _ & _ & Hrun).
  rewrite !bind_run, Hrun. cbn [op_scores]. unfold mret at 1, M_ret.
  rewrite bool_decide_false by (rewrite length_map; by destruct allowed_words).
  rewrite bind_run. unfold lift at 1.
  edestruct (np_argmin_bound (F := F)) as (i & -> & Hi);
    [|destruct (list_get_lt allowed_words i) as [w Hw]].
  - by destruct allowed_words.
  - by rewrite !length_map in Hi.
  - exists w. unfold lift. by rewrite Hw.
Qed.

Lemma optimal_guess_one_ahead_no_answers allowed_words (priors : gmap string F)
    game_name s :
  allowed_words ≠ [] →
  optimal_guess_one_ahead allowed_words [] priors game_name s
  = (Raise (ValueError "No possible words available for guessing."), s).
Proof.
  intros Hallowed. unfold optimal_guess_one_ahead, optimal_guess_over.
  rewrite bool_decide_false by (by destruct allowed_words).
  by rewrite !bind_run.
Qed.

Lemma filter_none {A : Type} (P : A → Prop) `{∀ x, Decision (P x)} (l : list A) :
  Forall (λ x, ¬ P x) l → filter P l = [].
Proof.
  induction 1 as [|x l Hx _ IH]; [done|].
  by rewrite filter_cons, decide_False, IH.
Qed.

Lemma covers_fewer_answers d words1 words2 words2' :
  covers d words1 words2 → words2' ⊆ words2 → covers d words1 words2'.
Proof.
  intros [Hidx Hpat] Hsub. apply Forall_app in Hidx as [Hidx1 Hidx2]. split.
  - apply Forall_app. split; [done|].
    apply Forall_forall. intros w Hw.
    by apply (proj1 (Forall_forall _ _) Hidx2), Hsub.
  - eapply Forall_impl; [exact Hpat|]. intros g Hg.
    apply Forall_forall. intros w Hw.
    by apply (proj1 (Forall_forall _ _) Hg), Hsub.
Qed.

Lemma get_word_buckets_run guess possible_words game_name s :
  is_Some (words_to_index (resident game_name s) !! guess) →
  Forall (λ w, ∃ p, cached_pattern (resident game_name s) guess w = Some p
                    ∧ (p < 3 ^ 5)%N) possible_words →
  ∃ buckets,
    get_word_buckets guess possible_words game_name s
    = (Ok buckets, loaded game_name s)
    ∧ length buckets = 3 ^ 5
    ∧ ∀ p, (p < 3 ^ 5)%N →
        buckets !! N.to_nat p
        = Some (filter (λ w, cached_pattern (resident game_name s) guess w = Some p)
                       possible_words).
Proof.
  intros Hg Hall.
  assert (Forall (λ w, is_Some (cached_pattern (resident game_name s) guess w))
            possible_words) as Hsome.
  { eapply Forall_impl; [exact Hall|]. intros w (p & -> & _). eauto. }
  destruct (fold_bucket_append_filter
              (cached_pattern (resident game_name s) guess) possible_words
              (replicate (3 ^ 5) [])) as (buckets & Hrun & Hlen & Hat).
  { eapply Forall_impl; [exact Hall|]. intros w (p & Hp & Hlt).
    exists p. split; [done|]. rewrite length_replicate.
    change (3 ^ 5) with (N.to_nat (3 ^ 5)%N). lia. }
  rewrite length_replicate in Hlen.
  exists buckets. split; [|split; [done|]].
  - unfold get_word_buckets.
    rewrite bind_get_pattern_matrix, (lookup_row_covered _ _ _ Hg Hsome).
    unfold flatten. cbn [concat]. rewrite app_nil_r.
    unfold pattern_row at 1.
    rewrite bool_decide_true by (by apply omap_covered).
    unfold lift, pattern_row. by rewrite Hrun.
  - intros p Hp. rewrite (Hat (N.to_nat p) []).
    + by rewrite N2Nat.id.
    + apply lookup_replicate_2. change (3 ^ 5) with (N.to_nat (3 ^ 5)%N). lia.
Qed.

(** The refinement of one candidate whose guess leaves a bucket empty:
    the second guess of that bucket is asked of [optimal_guess], which
    raises. *)
Lemma two_ply_score_raises (op : one_ply) allowed_words possible_words
    (priors : gmap string F) game_name s d i guess :
  PATTERN_GRID_DATA s = Some d →
  allowed_words !! i = Some guess → i < length (op_h1s op) →
  get_word_list game_name ≠ [] →
  Forall (λ w, is_Some (priors !! w)) possible_words →
  covers d (guess :: get_word_list game_name) possible_words →
  Forall (λ w, ∃ p, cached_pattern d guess w = Some p ∧ (p < 3 ^ 5)%N)
         possible_words →
  (∃ p, (p < 3 ^ 5)%N
        ∧ Forall (λ w, cached_pattern d guess w ≠ Some p) possible_words) →
  two_ply_score optimal_guess_one_ahead op allowed_words possible_words priors
    game_name i s
  = (Raise (ValueError "No possible words available for guessing."), s).
Proof.
  intros Hcache Hi Hh1 Hwl Hpri Hcov Hrange (p & Hp & Hempty).
  assert (resident game_name s = d) as Hres by (unfold resident; by rewrite Hcache).
  assert (loaded game_name s = s) as Hload by (unfold loaded; by rewrite Hcache).
  assert (covers d [guess] possible_words) as Hcov1.
  { destruct Hcov as [Hidx Hpat]. split.
    - apply Forall_cons in Hidx as [Hg Hidx]. apply Forall_cons. split; [done|].
      apply Forall_app in Hidx as [_ Hidx]. done.
    - apply Forall_cons in Hpat as [Hg _]. by apply Forall_cons. }
  assert (covers d (get_word_list game_name) possible_words) as Hcovwl.
  { destruct Hcov as [Hidx Hpat]. split.
    - by apply Forall_cons in Hidx as [_ Hidx].
    - by apply Forall_cons in Hpat as [_ Hpat]. }
  unfold two_ply_score. cbv zeta.
  rewrite bind_run. unfold lift at 1, list_get at 1. rewrite Hi. cbn [from_option].
  destruct (list_get_lt (op_h1s op) i Hh1) as [h1 Hh1'].
  rewrite bind_run. unfold lift at 1. rewrite Hh1'.
  rewrite bind_run. unfold get_pattern_distributions.
  rewrite bind_get_pattern_matrix, Hres, Hload, lookup_matrix_covered by done.
  cbn [map]. rewrite ret_run.
  rewrite bind_run. unfold lift at 1. cbn [list_get lookup list_lookup from_option].
  destruct (get_word_buckets_run guess possible_words game_name s)
    as (buckets & Hbuckets & Hlen & Hat).
  { rewrite Hres. destruct Hcov1 as [Hidx _]. by apply Forall_cons in Hidx as [? _]. }
  { by rewrite Hres. }
  rewrite Hres in Hat. rewrite Hload in Hbuckets.
  rewrite bind_run, Hbuckets.
  destruct (mapM_first_empty_raises
              (λ bucket, optimal_guess_one_ahead (get_word_list game_name) bucket
                           priors game_name)
              buckets s
              (ValueError "No possible words available for guessing."))
    as (s' & Hraise & ->).
  - apply (list_elem_of_lookup_2 _ (N.to_nat p)). rewrite (Hat p Hp).
    apply f_equal. by apply filter_none.
  - intros b [j Hj]%list_elem_of_lookup_1 Hne.
    assert (j < 3 ^ 5) as Hjlt by (rewrite <- Hlen; by eapply lookup_lt_Some).
    assert (N.of_nat j < 3 ^ 5)%N as HjN
      by (change (3 ^ 5) with (N.to_nat (3 ^ 5)%N) in Hjlt; lia).
    pose proof (Hat (N.of_nat j) HjN) as Hb. rewrite Nat2N.id, Hj in Hb.
    injection Hb as ->.
    assert (filter (λ w, cached_pattern d guess w = Some (N.of_nat j)) possible_words
            ⊆ possible_words) as Hsub
      by (by intros w [_ Hw]%list_elem_of_filter).
    destruct (optimal_guess_one_ahead_run (get_word_list game_name)
                (filter (λ w, cached_pattern d guess w = Some (N.of_nat j))
                        possible_words) priors game_name s) as [g Hg].
    + done.
    + done.
    + apply Forall_forall. intros w Hw.
      by apply (proj1 (Forall_forall _ _) Hpri), Hsub.
    + rewrite Hres. by eapply covers_fewer_answers.
    + exists g. by rewrite Hg, Hload.
  - by apply optimal_guess_one_ahead_no_answers.
  - by rewrite bind_run, Hraise.
Qed.

(** With the lookahead enabled and a shortlist that is not empty,
    [get_expected_scores] raises as soon as the guess it refines first
    leaves one bucket empty.  [s1] is the world after the one-ply scores,
    with the grid [d] resident. *)
Lemma lookahead_raises_value_error allowed_words possible_words
    (priors : gmap string F) game_name n_top s s1 d one_ply i rest guess :
  get_expected_scores allowed_words possible_words priors game_name false n_top s
  = (Ok one_ply, s1) →
  PATTERN_GRID_DATA s1 = Some d →
  length one_ply = length allowed_words →
  take n_top (np_argsort one_ply) = i :: rest →
  allowed_words !! i = Some guess →
  get_word_list game_name ≠ [] →
  Forall (λ w, is_Some (priors !! w)) possible_words →
  covers d (guess :: get_word_list game_name) possible_words →
  Forall (λ w, ∃ p, cached_pattern d guess w = Some p ∧ (p < 3 ^ 5)%N)
         possible_words →
  (∃ p, (p < 3 ^ 5)%N
        ∧ Forall (λ w, cached_pattern d guess w ≠ Some p) possible_words) →
  get_expected_scores allowed_words possible_words priors game_name true n_top s
  = (Raise (ValueError "No possible words available for guessing."), s1).
Proof.
  intros Hone Hcache Hlen Htake Hi Hwl Hpri Hcov Hrange Hempty.
  unfold get_expected_scores, get_expected_scores_over in Hone |- *.
  rewrite bind_run in Hone |- *.
  destruct (one_ply_scores allowed_words possible_words priors game_name s)
    as [[op|e] s2] eqn:Hop; [|done].
  cbn [negb] in Hone |- *. unfold mret at 1, M_ret in Hone.
  injection Hone as <- ->.
  rewrite Htake. cbn [for_each]. rewrite !bind_run.
  rewrite (two_ply_score_raises op allowed_words possible_words priors game_name
             s1 d i guess); try done.
  unfold one_ply_scores in Hop. case_bool_decide; [done|].
  apply bind_Ok_inv in Hop as (ws & s2 & _ & Hop).
  apply bind_Ok_inv in Hop as (h1s & s3 & Hh1s & Hop).
  apply bind_Ok_inv in Hop as (wtw & s4 & _ & Hop).
  unfold mret, M_ret in Hop. injection Hop as <- _. cbn [op_h1s op_scores] in *.
  rewrite length_zip_with, length_map in Hlen.
  apply lookup_lt_Some in Hi. lia.
Qed.

End LookaheadRaises.

(** C6, the failing input.  The game "abc" with the allowed words "abc" and
    "xyz", the possible answers "abc" and "abd", priors 1 and 3, and the
    two-ply lookahead enabled: with a shortlist of one candidate, and with
    the default shortlist of 25, [get_expected_scores] returns no scores.
    Whichever candidate is refined first, it leaves one of the 3^5 buckets
    empty, and the second guess for that bucket raises [ValueError]. *)
Theorem lookahead_raises_on_small_game :
  get_expected_scores (F := R) (env := toy) ["abc"; "xyz"] ["abc"; "abd"]
    (<["abc" := 1%R]> (<["abd" := 3%R]> ∅)) "abc" true 1 fresh
  = (Raise (ValueError "No possible words available for guessing."),
     loaded (env := toy) "abc" fresh)
  ∧ get_expected_scores (F := R) (env := toy) ["abc"; "xyz"] ["abc"; "abd"]
      (<["abc" := 1%R]> (<["abd" := 3%R]> ∅)) "abc" true 25 fresh
    = (Raise (ValueError "No possible words available for guessing."),
       loaded (env := toy) "abc" fresh).
Proof.
  assert (∀ n_top, 0 < n_top →
    get_expected_scores (F := R) (env := toy) ["abc"; "xyz"] ["abc"; "abd"]
      (<["abc" := 1%R]> (<["abd" := 3%R]> ∅)) "abc" true n_top fresh
    = (Raise (ValueError "No possible words available for guessing."),
       loaded (env := toy) "abc" fresh)) as Hany; [|split; apply Hany; lia].
  intros n_top Htop.
  destruct (two_ply_no_shortlist (F := R) (env := toy) ["abc"; "xyz"] ["abc"; "abd"]
              (<["abc" := 1%R]> (<["abd" := 3%R]> ∅)) "abc" fresh)
    as (one & Hone & _ & Hlen).
  { discriminate. }
  { repeat constructor; eexists; reflexivity. }
  { split; repeat constructor; vm_compute; eauto. }
  assert (length (np_argsort one) = 2) as Hsorted.
  { change (np_argsort one) with (stable_argsort R_ltb one).
    by rewrite stable_argsort_length. }
  destruct (np_argsort one) as [|i rest] eqn:Hi; [done|].
  assert (i < 2) as Hlt.
  { change (np_argsort one) with (stable_argsort R_ltb one) in Hi.
    assert (i < length one) as Hlt; [|by rewrite Hlen in Hlt].
    apply (stable_argsort_lt R_ltb). rewrite Hi. left. }
  assert (∃ guess, ["abc"; "xyz"] !! i = Some guess
                   ∧ (guess = "abc" ∨ guess = "xyz")) as (guess & Hguess & Hwhich).
  { destruct i as [|[|i]]; [by eexists; eauto|by eexists; eauto|lia]. }
  eapply (lookahead_raises_value_error (F := R) (env := toy) _ _ _ _ n_top fresh _
            (resident (env := toy) "abc" fresh) one i (take (n_top - 1) rest) guess).
  - exact Hone.
  - reflexivity.
  - exact Hlen.
  - rewrite Hi. destruct n_top; [lia|]. cbn [take]. apply f_equal, f_equal2; [lia|done].
  - exact Hguess.
  - discriminate.
  - repeat constructor; eexists; reflexivity.
  - destruct Hwhich as [-> | ->]; split; repeat constructor; vm_compute; eauto.
  - destruct Hwhich as [-> | ->];
      repeat constructor; (eexists; split; [by vm_compute|by vm_compute]).
  - destruct Hwhich as [-> | ->].
    + exists 0%N. split; [by vm_compute|]. repeat constructor; by vm_compute.
    + exists 1%N. split; [by vm_compute|]. repeat constructor; by vm_compute.
Qed.

(** * The uniform policy and the verifier in any arithmetic *)

Section MeritOrder.
Context {F : Type} {num : Num F}.

Lemma elem_of_merit_pairs (n : nat) (b : bool) (k : nat) :
  k ≤ n → (b, k) ∈ merit_pairs n.
Proof.
  intros Hk. unfold merit_pairs. apply list_elem_of_bind. exists b. split.
  - apply list_elem_of_fmap. exists k. split; [done|]. apply elem_of_seq. lia.
  - destruct b; [right; left|left].
Qed.

Lemma bounds_ordered_by_merit_spec (n : nat) (b b' : bool) (k k' : nat) :
  bounds_ordered_by_merit (F := F) n = true → k ≤ n → k' ≤ n →
  k + Nat.b2n b < k' + Nat.b2n b' →
  fltb (lower_bound (F := F) n b' k') (lower_bound n b k) = true
  ∧ fltb (lower_bound (F := F) n b k) (lower_bound n b' k') = false.
Proof.
  unfold bounds_ordered_by_merit. rewrite forallb_forall. intros Hall Hk Hk' Hlt.
  specialize (Hall (b, k)). rewrite forallb_forall in Hall.
  specialize (Hall (proj1 (list_elem_of_In _ _) (elem_of_merit_pairs n b k Hk))
                   (b', k')
                   (proj1 (list_elem_of_In _ _) (elem_of_merit_pairs n b' k' Hk'))).
  unfold separates in Hall. cbn [fst snd] in Hall.
  rewrite decide_True in Hall by done.
  apply andb_true_iff in Hall as [Hyes Hno]. by apply negb_true_iff in Hno.
Qed.

Lemma bounds_ordered_upto_spec (N n : nat) :
  bounds_ordered_upto (F := F) N = true → 1 ≤ n ≤ N →
  bounds_ordered_by_merit (F := F) n = true.
Proof.
  unfold bounds_ordered_upto. rewrite forallb_forall. intros Hall Hn.
  apply Hall, list_elem_of_In, elem_of_seq. lia.
Qed.

(** [np.argmin] over scores that compare as the merits of the candidates
    do, whenever the merits differ: the index it returns holds a candidate
    of greatest merit. *)
Lemma arg_best_greatest {A : Type} (f : A → F) (m : A → nat) (ws pre : list A)
    (i j : nat) (w0 : A) :
  (∀ x y, x ∈ pre ++ ws → y ∈ pre ++ ws → m x < m y →
          fltb (f y) (f x) = true ∧ fltb (f x) (f y) = false) →
  length pre = i → pre !! j = Some w0 → (∀ y, y ∈ pre → m y ≤ m w0) →
  ∃ w, (pre ++ ws) !! arg_best fltb (map f ws) i (j, f w0) = Some w
       ∧ ∀ y, y ∈ pre ++ ws → m y ≤ m w.
Proof.
  revert pre i j w0.
  induction ws as [|z ws IH]; intros pre i j w0 Hsep Hlen Hj Hmax.
  - cbn. rewrite app_nil_r. exists w0. split; [done|exact Hmax].
  - cbn [map arg_best fst snd].
    assert (w0 ∈ pre ++ z :: ws) as Hw0
      by (apply elem_of_app; left; by eapply list_elem_of_lookup_2).
    assert (z ∈ pre ++ z :: ws) as Hz by (apply elem_of_app; right; left).
    assert (pre ++ z :: ws = (pre ++ [z]) ++ ws) as Heq by (by rewrite <- app_assoc).
    rewrite Heq in Hsep |- *.
    destruct (fltb (f z) (f w0)) eqn:Hcmp.
    + apply IH; [done|rewrite length_app; cbn; lia| |].
      * rewrite lookup_app_r by lia. by rewrite Hlen, Nat.sub_diag.
      * assert (m w0 ≤ m z) as Hle.
        { destruct (decide (m z < m w0)) as [Hlt|]; [|lia].
          rewrite <- Heq in Hsep.
          destruct (Hsep z w0 Hz Hw0 Hlt) as [_ Hno]. congruence. }
        intros y [Hy | ->%list_elem_of_singleton]%elem_of_app; [|done].
        specialize (Hmax y Hy). lia.
    + apply IH; [done|rewrite length_app; cbn; lia| |].
      * rewrite lookup_app_l; [done|]. by eapply lookup_lt_Some.
      * intros y [Hy | ->%list_elem_of_singleton]%elem_of_app; [by apply Hmax|].
        destruct (decide (m w0 < m z)) as [Hlt|]; [|lia].
        rewrite <- Heq in Hsep.
        destruct (Hsep w0 z Hw0 Hz Hlt) as [Hyes _]. congruence.
Qed.

Lemma np_argmin_greatest {A : Type} (f : A → F) (m : A → nat) (ws : list A) (i : nat) :
  (∀ x y, x ∈ ws → y ∈ ws → m x < m y →
          fltb (f y) (f x) = true ∧ fltb (f x) (f y) = false) →
  np_argmin (map f ws) = Ok i →
  ∃ w, ws !! i = Some w ∧ ∀ y, y ∈ ws → m y ≤ m w.
Proof.
  destruct ws as [|w0 ws]; [done|]. intros Hsep [= <-].
  apply (arg_best_greatest f m ws [w0] 1 0 w0); [done|done|done|].
  by intros y ->%list_elem_of_singleton.
Qed.

End MeritOrder.

Section UniformGuessAny.
Context {F : Type} {num : Num F} {tr : Transcendental F} {env : Collaborators}.

(** Under the uniform policy [optimal_guess] returns an allowed word of
    greatest merit: bucket count, plus one for a possible answer. *)
Lemma uniform_guess_greatest allowed_words possible_words
    (priors : gmap string F) game_name look_two_ahead s :
  allowed_words ≠ [] → possible_words ≠ [] →
  covers (resident game_name s) allowed_words possible_words →
  bounds_ordered_by_merit (F := F) (length possible_words) = true →
  ∃ i guess,
    optimal_guess allowed_words possible_words priors game_name
      look_two_ahead true false s = (Ok guess, loaded game_name s)
    ∧ allowed_words !! i = Some guess
    ∧ ∀ w, w ∈ allowed_words →
        bucket_count (pattern_row (resident game_name s) possible_words w)
        + Nat.b2n (bool_decide (w ∈ possible_words))
        ≤ bucket_count (pattern_row (resident game_name s) possible_words guess)
          + Nat.b2n (bool_decide (guess ∈ possible_words)).
Proof.
  intros Hallowed Hne Hcov Hord.
  unfold optimal_guess, optimal_guess_over.
  rewrite bool_decide_false by (by destruct allowed_words).
  rewrite bind_run, get_score_lower_bounds_run by done.
  rewrite bool_decide_false by (rewrite length_map; by destruct allowed_words).
  rewrite bind_run. unfold lift at 1.
  edestruct (np_argmin_bound (F := F)) as (i & Hi & Hlt);
    [|rewrite Hi]; [by destruct allowed_words|].
  rewrite length_map in Hlt.
  destruct (list_get_lt allowed_words i Hlt) as [g Hg]. rewrite Hg.
  exists i, g. split; [done|]. apply list_get_Ok in Hg. split; [done|].
  apply (np_argmin_greatest _
           (λ w, bucket_count (pattern_row (resident game_name s) possible_words w)
                 + Nat.b2n (bool_decide (w ∈ possible_words)))) in Hi
    as (g' & Hg' & Hmax).
  - rewrite Hg in Hg'. by injection Hg' as <-.
  - intros x y _ _ Hxy.
    rewrite (Nat.add_comm _ (Nat.b2n (bool_decide (x ∈ _)))) in Hxy.
    rewrite (Nat.add_comm _ (Nat.b2n (bool_decide (y ∈ _)))) in Hxy.
    rewrite !(Nat.add_comm (Nat.b2n _)) in Hxy.
    apply bounds_ordered_by_merit_spec; [done| | |done].
    + etrans; [apply bucket_count_le_length|apply length_pattern_row].
    + etrans; [apply bucket_count_le_length|apply length_pattern_row].
Qed.

End UniformGuessAny.

Section VerifierAny.
Context {F : Type} {num : Num F} {tr : Transcendental F} {env : Collaborators}.
Variables (s : world) (d : grid_data) (all_words : list string).
Variables (priors : gmap string F) (game_name : string) (N : nat).
Hypothesis cache_populated : PATTERN_GRID_DATA s = Some d.
Hypothesis grid_genuine : genuine_grid d all_words.
Hypothesis bounds_ordered : bounds_ordered_upto (F := F) N = true.

Local Abbreviation merit P w :=
  (bucket_count (pattern_row d P w) + Nat.b2n (bool_decide (w%string ∈ P%list))).
Local Abbreviation next_guess P :=
  (optimal_guess (F := F) all_words P priors game_name false true false s).
Local Abbreviation bucket g p P :=
  (filter (λ w, cached_pattern d g w = Some p) P).

Lemma any_guess_run P :
  P ≠ [] → P ⊆ all_words → length P ≤ N →
  ∃ g, next_guess P = (Ok g, s) ∧ g ∈ all_words
       ∧ ∀ w, w ∈ all_words → merit P w ≤ merit P g.
Proof.
  intros Hne Hsub Hlen.
  assert (all_words ≠ []) as Hall.
  { destruct P as [|a P]; [done|]. intros Heq.
    specialize (Hsub a (list_elem_of_here _ _)). rewrite Heq in Hsub.
    by apply elem_of_nil in Hsub. }
  pose proof (populated_resident s d game_name cache_populated) as Hres.
  pose proof (populated_loaded s d game_name cache_populated) as Hload.
  destruct (uniform_guess_greatest all_words P priors game_name false s)
    as (i & g & Hrun & Hi & Hmax).
  - done.
  - done.
  - rewrite Hres. by apply (genuine_grid_covers d all_words).
  - apply (bounds_ordered_upto_spec N); [done|]. destruct P; [done|cbn in *; lia].
  - rewrite Hres in Hmax. rewrite Hload in Hrun.
    exists g. split; [done|]. split; [by eapply list_elem_of_lookup_2|done].
Qed.

(** The guess of the uniform policy splits the possibilities, unless it is
    the answer itself. *)
Lemma any_guess_progress P a g p :
  NoDup P → P ⊆ all_words → length P ≤ N → a ∈ P →
  next_guess P = (Ok g, s) → g ≠ a → cached_pattern d g a = Some p →
  length (bucket g p P) < length P.
Proof.
  intros Hnd Hsub Hlen Ha Hguess Hne Hp.
  destruct (any_guess_run P) as (g' & Hrun & Hg & Hmax);
    [by intros ->; apply elem_of_nil in Ha|done|done|].
  rewrite Hguess in Hrun. injection Hrun as <-.
  destruct (decide (Forall (λ w, cached_pattern d g w = Some p) P)) as [Hall|Hex].
  2: { apply not_Forall_Exists in Hex; [|apply _].
       apply Exists_exists in Hex as (w & Hw & Hnp).
       by eapply length_filter_lt. }
  exfalso. rewrite Forall_forall in Hall.
  specialize (Hmax a (Hsub a Ha)).
  rewrite (bool_decide_true (a ∈ P)) in Hmax by done. cbn [Nat.b2n] in Hmax.
  assert (bucket_count (pattern_row d P g) ≤ 1) as Hone.
  { apply (bucket_count_le_1 _ p). intros q (w & Hw & Hq)%elem_of_pattern_row.
    rewrite (Hall w Hw) in Hq. by injection Hq. }
  destruct (genuine_grid_pattern d all_words a a grid_genuine)
    as (pa & Hpa & Hlta & _); [by apply Hsub..|].
  destruct (decide (g ∈ P)) as [HgP|HgP].
  - destruct (genuine_grid_pattern d all_words a g grid_genuine)
      as (pg & Hpg & Hltg & Hexact); [by apply Hsub|done|].
    assert (2 ≤ bucket_count (pattern_row d P a)) as Htwo.
    { apply (bucket_count_ge _ [pa; pg]).
      - apply NoDup_cons. split; [|apply NoDup_singleton].
        intros ->%list_elem_of_singleton. by apply Hne, Hexact.
      - intros q [-> | [-> | []%elem_of_nil]%elem_of_cons]%elem_of_cons.
        + split; [|done]. apply elem_of_pattern_row. eauto.
        + split; [|done]. apply elem_of_pattern_row. eauto. }
    destruct (bool_decide (g ∈ P)); cbn [Nat.b2n] in Hmax; lia.
  - assert (1 ≤ bucket_count (pattern_row d P a)) as Hge.
    { apply (bucket_count_ge _ [pa]); [apply NoDup_singleton|].
      intros q ->%list_elem_of_singleton. split; [|done].
      apply elem_of_pattern_row. eauto. }
    rewrite (bool_decide_false (g ∈ P)) in Hmax by done. cbn [Nat.b2n] in Hmax. lia.
Qed.

(** Once the guess is the one the uniform policy makes for the current
    possibilities, the game ends within as many turns as possibilities are
    left. *)
Lemma any_play_terminates fuel P a g score :
  NoDup P → P ⊆ all_words → length P ≤ N → a ∈ P → next_guess P = (Ok g, s) →
  length P ≤ fuel →
  ∃ r, play fuel all_words priors game_name a g P score s = (Ok r, s)
       ∧ score ≤ r ∧ (g ≠ a → score < r).
Proof.
  revert P g score.
  induction fuel as [|fuel IH]; intros P g score Hnd Hsub HN Ha Hguess Hlen.
  { destruct P; [by apply elem_of_nil in Ha|cbn in Hlen; lia]. }
  cbn [play]. case_bool_decide as Heq.
  { exists score. split; [done|]. split; [lia|done]. }
  destruct (any_guess_run P) as (g' & Hrun & Hg & _);
    [by intros ->; apply elem_of_nil in Ha|done|done|].
  rewrite Hguess in Hrun. injection Hrun as <-.
  destruct (get_pattern_populated s d all_words game_name cache_populated
              grid_genuine g a Hg (Hsub a Ha)) as (p & Hpat & Hp).
  rewrite bind_run, Hpat, bind_run.
  rewrite (get_possible_words_bucket s d all_words game_name cache_populated
             grid_genuine) by done.
  assert (a ∈ bucket g p P) as Ha' by (by apply list_elem_of_filter).
  assert (bucket g p P ⊆ all_words) as Hsub'
    by (intros w [_ Hw]%list_elem_of_filter; by apply Hsub).
  pose proof (any_guess_progress P a g p Hnd Hsub HN Ha Hguess Heq Hp) as Hless.
  destruct (any_guess_run (bucket g p P)) as (g' & Hguess' & _);
    [by intros Hnil; rewrite Hnil in Ha'; apply elem_of_nil in Ha'|done|lia|].
  rewrite bind_run, Hguess'.
  destruct (IH (bucket g p P) g' (score + 1)) as (r & Hr & Hle & _);
    [by apply NoDup_filter|done|lia|done|done|lia|].
  exists r. split; [done|]. split; lia.
Qed.

(** The second guess of a game, as a function of the answer. *)
Local Abbreviation second_guess c P a :=
  (cached_pattern d c a ≫= λ p,
     match (next_guess (bucket c p P)).1 with
     | Ok g => Some g
     | Raise _ => None
     end).

(** The score of one game: one when the first guess is the answer, two at
    least otherwise, and three at least when the second guess misses too. *)
Lemma any_play_first_guess fuel P a c :
  NoDup P → P ⊆ all_words → length P ≤ N → a ∈ P → c ∈ all_words →
  length P < fuel →
  ∃ r, play fuel all_words priors game_name a c P 1 s = (Ok r, s)
       ∧ 3 ≤ r + (if decide (a = c ∨ second_guess c P a = Some a) then 1 else 0)
               + (if decide (a = c) then 1 else 0).
Proof.
  intros Hnd Hsub HN Ha Hc Hlen. destruct fuel as [|fuel]; [lia|].
  cbn [play]. case_bool_decide as Heq.
  { exists 1. split; [done|]. subst c.
    rewrite decide_True by (by left). by rewrite decide_True. }
  destruct (get_pattern_populated s d all_words game_name cache_populated
              grid_genuine c a Hc (Hsub a Ha)) as (p & Hpat & Hp).
  rewrite bind_run, Hpat, bind_run.
  rewrite (get_possible_words_bucket s d all_words game_name cache_populated
             grid_genuine) by done.
  assert (a ∈ bucket c p P) as Ha' by (by apply list_elem_of_filter).
  assert (bucket c p P ⊆ all_words) as Hsub'
    by (intros w [_ Hw]%list_elem_of_filter; by apply Hsub).
  pose proof (length_filter (λ w, cached_pattern d c w = Some p) P) as Hsize.
  destruct (any_guess_run (bucket c p P)) as (g & Hguess & _);
    [by intros Hnil; rewrite Hnil in Ha'; apply elem_of_nil in Ha'|done|lia|].
  rewrite bind_run, Hguess.
  destruct (any_play_terminates fuel (bucket c p P) a g (1 + 1))
    as (r & Hr & Hle & Hlt); [by apply NoDup_filter|done|lia|done|done|lia|].
  exists r. split; [done|].
  rewrite (decide_False (P := a = c)) by congruence.
  rewrite Hp. cbn [mbind option_bind]. rewrite Hguess. cbn [fst].
  destruct (decide (a = c ∨ Some g = Some a)) as [_|Hmiss]; [lia|].
  assert (g ≠ a) as Hga by (intros ->; apply Hmiss; by right).
  specialize (Hlt Hga). lia.
Qed.



End VerifierAny.

(** The grid of the six-word game is genuine, and float64 keeps the order
    of the lower bounds for up to thirty-two possible answers. *)
Lemma six_grid_genuine :
  genuine_grid (resident (env := six) "six" fresh) six_words.
Proof. unfold six_words. check_genuine. Qed.

Lemma five_answers_allowed : five_answers ⊆ six_words.
Proof.
  intros w Hw. unfold five_answers in Hw. unfold six_words.
  repeat (apply elem_of_cons in Hw as [-> | Hw]; [set_solver|]).
  by apply elem_of_nil in Hw.
Qed.

Lemma float64_bounds_ordered : bounds_ordered_upto (F := float) 32 = true.
Proof. by vm_compute. Qed.

Lemma float64_bounds_ordered_five : bounds_ordered_upto (F := float) 5 = true.
Proof. by vm_compute. Qed.



(** * Further properties in any arithmetic *)

Section UniformPolicyAny.
Context {F : Type} {num : Num F} {tr : Transcendental F} {env : Collaborators}.

(** X18. Under the uniform policy, with allowed words and possible answers
    that are not empty and that the resident grid covers, and an arithmetic
    whose rounding does not invert the order of the lower bounds for that
    many possible answers (float64 passes the check
    [bounds_ordered_by_merit] for the sizes tried): [optimal_guess] returns
    an allowed word with the most non-empty buckets, a possible answer
    counting for one bucket more.  Which of several such words it returns
    is left to the rounding. *)
Theorem uniform_policy_greatest_merit allowed_words possible_words
    (priors : gmap string F) game_name look_two_ahead s :
  allowed_words ≠ [] → possible_words ≠ [] →
  covers (resident game_name s) allowed_words possible_words →
  bounds_ordered_by_merit (F := F) (length possible_words) = true →
  ∃ i guess,
    optimal_guess allowed_words possible_words priors game_name
      look_two_ahead true false s = (Ok guess, loaded game_name s)
    ∧ allowed_words !! i = Some guess
    ∧ ∀ w, w ∈ allowed_words →
        bucket_count (pattern_row (resident game_name s) possible_words w)
        + Nat.b2n (bool_decide (w ∈ possible_words))
        ≤ bucket_count (pattern_row (resident game_name s) possible_words guess)
          + Nat.b2n (bool_decide (guess ∈ possible_words)).
Proof.
  intros Hallowed Hne Hcov Hord.
  destruct (uniform_guess_greatest allowed_words possible_words priors game_name
              look_two_ahead s Hallowed Hne Hcov Hord) as (i & g & Hrun & Hi & Hmax).
  exists i, g. split; [exact Hrun|]. split; [exact Hi|exact Hmax].
Qed.

End UniformPolicyAny.

Lemma uniform_policy_greatest_merit_witness :
  ∃ i guess,
    optimal_guess (F := float) (tr := float64_no_transcendentals) (env := six)
      six_words five_answers ∅ "six" false true false fresh
    = (Ok guess, loaded (env := six) "six" fresh)
    ∧ six_words !! i = Some guess
    ∧ ∀ w, w ∈ six_words →
        bucket_count (pattern_row (resident (env := six) "six" fresh) five_answers w)
        + Nat.b2n (bool_decide (w ∈ five_answers))
        ≤ bucket_count (pattern_row (resident (env := six) "six" fresh)
                          five_answers guess)
          + Nat.b2n (bool_decide (guess ∈ five_answers)).
Proof.
  apply (uniform_policy_greatest_merit (F := float)
           (tr := float64_no_transcendentals) (env := six)
           six_words five_answers ∅ "six" false fresh).
  - discriminate.
  - discriminate.
  - apply (genuine_grid_covers _ six_words); [exact six_grid_genuine|done|].
    exact five_answers_allowed.
  - by vm_compute.
Defined.

Section BruteForceReturns.
Context {F : Type} {num : Num F} {tr : Transcendental F} {env : Collaborators}.
Variables (s : world) (d : grid_data) (all_words : list string).
Variables (priors : gmap string F) (game_name : string) (N : nat).
Hypothesis cache_populated : PATTERN_GRID_DATA s = Some d.
Hypothesis grid_genuine : genuine_grid d all_words.
Hypothesis bounds_ordered : bounds_ordered_upto (F := F) N = true.
Hypothesis argsort_indices : ∀ l : list F, np_argsort l ≡ₚ seq 0 (length l).

(** X21. With a populated cache whose grid is genuine on all words,
    possible answers that are not empty, free of duplicates and all among
    them, a shortlist of at least one candidate, an argsort that returns
    each index once and an arithmetic whose rounding does not invert the
    order of the lower bounds: [brute_force_optimal_guess] returns a word
    and leaves the cache as it was.  The shortlist holds the words at the
    first [n_top_picks] indices of the argsort of the lower bounds, every
    game played for a shortlisted word ends, and the word returned is on
    the shortlist. *)
Theorem brute_force_returns_shortlisted P n_top_picks fuel :
  NoDup P → P ≠ [] → P ⊆ all_words → length P ≤ N →
  0 < n_top_picks → length P < fuel →
  ∃ bounds top_choices guess,
    get_score_lower_bounds (F := F) all_words P game_name s = (Ok bounds, s)
    ∧ Forall2 (λ i c, all_words !! i = Some c)
        (take n_top_picks (np_argsort bounds)) top_choices
    ∧ top_choices ≠ []
    ∧ (∀ c, c ∈ top_choices →
         ∃ scores, game_scores fuel all_words P priors game_name c s
                   = (Ok scores, s)
                   ∧ length scores = length P)
    ∧ brute_force_optimal_guess (F := F) fuel all_words P priors game_name
        n_top_picks s = (Ok guess, s)
    ∧ guess ∈ top_choices.
Proof.
  intros Hnd Hne Hsub HN Htop Hfuel.
  assert (all_words ≠ []) as Hall.
  { destruct P as [|a P]; [done|]. intros Heq.
    specialize (Hsub a (list_elem_of_here _ _)). rewrite Heq in Hsub.
    by apply elem_of_nil in Hsub. }
  assert (∀ c, c ∈ all_words →
            ∃ scores, game_scores fuel all_words P priors game_name c s
                      = (Ok scores, s) ∧ length scores = length P) as Hgames.
  { intros c Hc.
    edestruct (mapM_unchanged s
      (λ answer, play fuel all_words priors game_name answer c P 1) (λ _ _, True))
      as (scores & Hrun & Hall2).
    { intros a Ha.
      destruct (any_play_first_guess s d all_words priors game_name N
                  cache_populated grid_genuine bounds_ordered fuel P a c)
        as (r & Hr & _); [done..|]. by exists r. }
    exists scores. split; [exact Hrun|]. symmetry. by eapply Forall2_length. }
  unfold brute_force_optimal_guess.
  rewrite bool_decide_false by (by destruct P).
  pose proof (populated_resident s d game_name cache_populated) as Hres.
  pose proof (populated_loaded s d game_name cache_populated) as Hload.
  rewrite bind_run, get_score_lower_bounds_run;
    [|done|rewrite Hres; by apply (genuine_grid_covers d all_words)].
  rewrite Hres, Hload.
  set (bounds := map _ all_words).
  assert (length bounds = length all_words) as Hlen by apply length_map.
  set (indices := take n_top_picks (np_argsort bounds)).
  assert (Forall (λ i, i < length all_words) indices) as Hvalid.
  { apply Forall_forall. intros i Hi%subseteq_take.
    rewrite (argsort_indices bounds), elem_of_seq in Hi. lia. }
  destruct (mapM_list_get_total all_words indices Hvalid) as [top Htopc].
  pose proof (mapM_list_get_Ok _ _ _ Htopc) as Hpicked.
  assert (length top = length indices) as Hlentop
    by (symmetry; by eapply Forall2_length).
  assert (0 < length indices) as Hpos.
  { unfold indices. rewrite length_take, (argsort_indices bounds), length_seq, Hlen.
    destruct all_words; [done|cbn; lia]. }
  assert (∀ c, c ∈ top → c ∈ all_words) as Hlisted.
  { intros c [j Hj]%list_elem_of_lookup_1.
    destruct (Forall2_lookup_r _ _ _ _ _ Hpicked Hj) as (i & _ & Hc).
    by eapply list_elem_of_lookup_2. }
  edestruct (mapM_unchanged s
    (true_average_score (F := F) fuel all_words P priors game_name)
    (λ _ _, True) top) as (avgs & Havgs & Heach).
  { intros c Hc. destruct (Hgames c (Hlisted c Hc)) as (scores & Hrun & _).
    exists (np_mean scores). split; [|done].
    unfold true_average_score. by rewrite bind_run, Hrun. }
  assert (length avgs = length top) as Hlenavgs
    by (symmetry; by eapply Forall2_length).
  destruct (np_argmin_bound (F := F) avgs) as (i & Hi & Hilt).
  { destruct avgs; [cbn in Hlenavgs; lia|done]. }
  destruct (list_get_lt top i) as [g Hg]; [lia|].
  exists bounds, top, g. split; [done|]. split; [done|].
  split; [destruct top; [cbn in Hlentop; lia|done]|].
  split; [intros c Hc; by apply Hgames, Hlisted|].
  split.
  { rewrite bind_run. unfold lift at 1. fold indices. rewrite Htopc.
    rewrite bind_run, Havgs, bind_run. unfold lift at 1. rewrite Hi.
    unfold lift. by rewrite Hg. }
  apply list_get_Ok in Hg. by eapply list_elem_of_lookup_2.
Qed.

End BruteForceReturns.

Lemma brute_force_returns_shortlisted_witness :
  ∃ bounds top_choices guess,
    get_score_lower_bounds (F := float) (env := six) six_words five_answers
      "six" after_six = (Ok bounds, after_six)
    ∧ Forall2 (λ i c, six_words !! i = Some c)
        (take 3 (np_argsort bounds)) top_choices
    ∧ brute_force_optimal_guess (F := float) (tr := float64_no_transcendentals)
        (env := six) 7 six_words five_answers ∅ "six" 3 after_six
      = (Ok guess, after_six)
    ∧ guess ∈ top_choices.
Proof.
  destruct (brute_force_returns_shortlisted (F := float)
              (tr := float64_no_transcendentals) (env := six)
              after_six (resident (env := six) "six" fresh) six_words ∅ "six" 5
              eq_refl six_grid_genuine float64_bounds_ordered_five
              (stable_argsort_Permutation PrimFloat.ltb) five_answers 3 7)
    as (bounds & top & guess & Hbounds & Htop & _ & _ & Hrun & Hin).
  - apply (bool_decide_unpack _). by vm_compute.
  - discriminate.
  - exact five_answers_allowed.
  - cbn. lia.
  - lia.
  - cbn. lia.
  - exists bounds, top, guess. split; [exact Hbounds|]. split; [exact Htop|].
    split; [exact Hrun|exact Hin].
Defined.
